(** * NuttX [mm/circ_buf] and [mm/iob]: a shallow embedding

    The development follows [mm/circ_buf/circ_buf.c] and
    [mm/iob/iob_get_queue_size.c] function by function.

    - [size_t] is an unsigned integer of [SIZE_BITS] bits; NuttX builds for
      targets whose [size_t] has 16, 32 or 64 bits, so the width is a
      parameter (class [SizeT]) and every operation on it is reduced modulo
      [2 ^ SIZE_BITS] explicitly.
    - A pointer to bytes is [option (list byte)]: [None] is [NULL], [Some l]
      is a block that holds the bytes [l].  [p + k] is an offset into it.
    - A [struct circ_buf_s *] is [option circ_buf_s].
    - What the C standard leaves undefined (division by zero, access through
      [NULL], access past the end of a block) is a [fault], kept apart from
      the values a function returns.
    - [ssize_t] and [int] results are [retval]: a number, or a negated errno.
      The calls that return a [size_t] count through [ssize_t] convert it
      ([ssize_of]): a count above [SSIZE_MAX] comes back negative. *)

From Stdlib Require Import ZArith List Lia Bool.
From Stdlib Require Import Strings.Byte.
Import ListNotations.
Local Open Scope Z_scope.

(** ** Machine integers *)

Class SizeT : Type := {
  SIZE_BITS : Z;
  SIZE_BITS_min : 16 <= SIZE_BITS
}.

(** The narrowest and the widest [size_t] NuttX is built with. *)
Definition size16 : SizeT := {| SIZE_BITS := 16; SIZE_BITS_min := Z.le_refl 16 |}.
Definition size64 : SizeT := {| SIZE_BITS := 64; SIZE_BITS_min := ltac:(lia) |}.

Section MachineIntegers.
Context {sz : SizeT}.

(** [SIZE_MAX + 1]. *)
Definition SIZE_MOD : Z := 2 ^ SIZE_BITS.

(** The values a [size_t] variable can hold. *)
Definition size_t (n : Z) : Prop := 0 <= n < SIZE_MOD.

Definition wrap (z : Z) : Z := z mod SIZE_MOD.

(** [a + b] and [a - b] on [size_t]. *)
Definition size_add (a b : Z) : Z := wrap (a + b).
Definition size_sub (a b : Z) : Z := wrap (a - b).

(** The largest [ssize_t], which has the width of [size_t]. *)
Definition SSIZE_MAX : Z := 2 ^ (SIZE_BITS - 1) - 1.

(** A [size_t] value returned as [ssize_t]: the value itself up to
    [SSIZE_MAX], and the negative number with the same bits above it. *)
Definition ssize_of (n : Z) : Z := if n <=? SSIZE_MAX then n else n - SIZE_MOD.

End MachineIntegers.

(** ** Undefined behaviour *)

Inductive fault : Type :=
| DivByZero
| NullDeref
| OutOfBounds.

Inductive fallible (A : Type) : Type :=
| Pure (a : A)
| Raise (f : fault).

Arguments Pure {A} a.
Arguments Raise {A} f.

Definition bind {A B : Type} (m : fallible A) (k : A -> fallible B) : fallible B :=
  match m with
  | Pure a => k a
  | Raise f => Raise f
  end.

Declare Scope fallible_scope.
Delimit Scope fallible_scope with fallible.
Notation "x <- m ;; k" := (bind m (fun x => k))
  (at level 61, m at next level, right associativity) : fallible_scope.
Notation "' p <- m ;; k" := (bind m (fun x => match x with p => k end))
  (at level 61, p pattern, m at next level, right associativity) : fallible_scope.
Local Open Scope fallible_scope.

(** [a % b] on [size_t]. *)
Definition size_rem (a b : Z) : fallible Z :=
  if b =? 0 then Raise DivByZero else Pure (a mod b).

(** ** Memory blocks *)

Definition ptr : Type := option (list byte).
Definition NULL : ptr := None.

Definition len (l : list byte) : Z := Z.of_nat (length l).

(** [p + k]. *)
Definition ptr_add (p : ptr) (k : Z) : ptr :=
  option_map (skipn (Z.to_nat k)) p.

(** [memcpy(dst + doff, src + soff, n)]: the block behind [dst] afterwards. *)
Definition memcpy (dst : ptr) (doff : Z) (src : ptr) (soff n : Z) : fallible ptr :=
  match dst, src with
  | Some d, Some s =>
      if (doff + n <=? len d) && (soff + n <=? len s) then
        Pure (Some (firstn (Z.to_nat doff) d
                      ++ firstn (Z.to_nat n) (skipn (Z.to_nat soff) s)
                      ++ skipn (Z.to_nat (doff + n)) d))
      else Raise OutOfBounds
  | _, _ => Raise NullDeref
  end.

(** The block read circularly from offset [k]: the bytes at [k], [k + 1],
    ... up to the end of the block, then those from its start. *)
Definition rotl {A : Type} (k : nat) (l : list A) : list A :=
  skipn k l ++ firstn k l.

Definition list_sum_Z (l : list Z) : Z := fold_right Z.add 0 l.

(** ** Return values *)

Inductive errno : Type :=
| EINVAL
| ENOMEM.

Inductive retval : Type :=
| Val (n : Z)
| NegErrno (e : errno).

Definition errno_code (e : errno) : Z :=
  match e with
  | EINVAL => 22
  | ENOMEM => 12
  end.

(** The number the caller receives. *)
Definition ssize_value (r : retval) : Z :=
  match r with
  | Val n => n
  | NegErrno e => - errno_code e
  end.

(** * The ring buffer: [mm/circ_buf/circ_buf.c] *)

Module CircBuf.

(** Modelled from the spec: [struct circ_buf_s] is declared in
    [include/nuttx/mm/circ_buf.h], which is not among the sources.  The data
    model has a storage block with an ownership tag, a capacity and two
    cursors; the fields are the ones [circ_buf.c] reads and writes, [size],
    [head] and [tail] of type [size_t], and [external] set when the block
    is borrowed. *)
Record circ_buf_s : Type := mk_circ_buf {
  base : ptr;
  size : Z;
  head : Z;
  tail : Z;
  external : bool
}.

Definition handle : Type := option circ_buf_s.

Definition set_tail (c : circ_buf_s) (t : Z) : circ_buf_s :=
  mk_circ_buf (base c) (size c) (head c) t (external c).

Definition set_head (c : circ_buf_s) (h : Z) : circ_buf_s :=
  mk_circ_buf (base c) (size c) h (tail c) (external c).

Definition set_base (c : circ_buf_s) (b : ptr) : circ_buf_s :=
  mk_circ_buf b (size c) (head c) (tail c) (external c).

Definition set_external (c : circ_buf_s) (e : bool) : circ_buf_s :=
  mk_circ_buf (base c) (size c) (head c) (tail c) e.

(** [circ->field] when [circ] may be [NULL]. *)
Definition deref (circ : handle) : fallible circ_buf_s :=
  match circ with
  | Some c => Pure c
  | None => Raise NullDeref
  end.

(** A [size_t] variable assigned from an [ssize_t] result: the value is
    reduced modulo [SIZE_MOD]. *)
Definition size_of_retval {sz : SizeT} (r : retval) : Z :=
  match r with
  | Val n => wrap n
  | NegErrno e => wrap (- errno_code e)
  end.

Section Operations.
Context {sz : SizeT}.

(** The allocator, [kmm_malloc] of [nuttx/kmalloc.h], is a parameter of the
    calls that use it: [kmm_malloc n] is [NULL] or a block.  [kmm_free] gives
    a block back and leaves the structure alone, so it has no counterpart
    here. *)
Definition allocator : Type := Z -> ptr.

(** [circ_buf_init].  [circ->external] is assigned before the allocation,
    so it is already changed when the allocation fails. *)
Definition circ_buf_init (kmm_malloc : allocator)
    (circ : handle) (base : ptr) (bytes : Z) : retval * handle :=
  match circ with
  | None => (NegErrno EINVAL, circ)
  | Some c =>
      match base with
      | Some _ =>
          if bytes =? 0 then (NegErrno EINVAL, circ)
          else (Val 0, Some (mk_circ_buf base bytes 0 0 true))
      | None =>
          if bytes =? 0 then (Val 0, Some (mk_circ_buf NULL bytes 0 0 false))
          else
            match kmm_malloc bytes with
            | None => (NegErrno ENOMEM, Some (set_external c false))
            | Some blk => (Val 0, Some (mk_circ_buf (Some blk) bytes 0 0 false))
            end
      end
  end.

(** [circ_buf_reset]. *)
Definition circ_buf_reset (circ : handle) : handle :=
  match circ with
  | Some c => Some (set_tail (set_head c 0) 0)
  | None => circ
  end.

(** [circ_buf_uninit]: the block is given back to the allocator when it is
    owned; the structure itself is not written. *)
Definition circ_buf_uninit (circ : handle) : handle := circ.

(** [circ_buf_size]. *)
Definition circ_buf_size (circ : handle) : Z :=
  match circ with
  | Some c => size c
  | None => 0
  end.

(** [circ_buf_used]. *)
Definition circ_buf_used (circ : handle) : Z :=
  match circ with
  | Some c => size_sub (head c) (tail c)
  | None => 0
  end.

(** [circ_buf_space]. *)
Definition circ_buf_space (circ : handle) : Z :=
  size_sub (circ_buf_size circ) (circ_buf_used circ).

(** [circ_buf_is_empty]. *)
Definition circ_buf_is_empty (circ : handle) : bool :=
  circ_buf_used circ =? 0.

(** [circ_buf_is_full]. *)
Definition circ_buf_is_full (circ : handle) : bool :=
  circ_buf_space circ =? 0.

(** [circ_buf_peek]: the result, the structure and the destination block.
    [return bytes] hands the [size_t] count back as [ssize_t]. *)
Definition circ_buf_peek (circ : handle) (dst : ptr) (bytes : Z)
    : fallible (retval * handle * ptr) :=
  match circ with
  | None => Pure (NegErrno EINVAL, circ, dst)
  | Some c =>
      let len := circ_buf_used circ in
      off <- size_rem (tail c) (size c) ;;
      let bytes := if bytes >? len then len else bytes in
      let len := size_sub (size c) off in
      let len := if bytes <? len then bytes else len in
      dst <- memcpy dst 0 (base c) off len ;;
      dst <- memcpy dst len (base c) 0 (size_sub bytes len) ;;
      Pure (Val (ssize_of bytes), circ, dst)
  end.

(** [circ_buf_read].  The [ssize_t] result of [circ_buf_peek] is assigned to
    the [size_t] variable [bytes], which is then returned as [ssize_t]. *)
Definition circ_buf_read (circ : handle) (dst : ptr) (bytes : Z)
    : fallible (retval * handle * ptr) :=
  match circ, dst with
  | Some _, Some _ =>
      '(r, circ, dst) <- circ_buf_peek circ dst bytes ;;
      let bytes := size_of_retval r in
      c <- deref circ ;;
      Pure (Val (ssize_of bytes), Some (set_tail c (size_add (tail c) bytes)), dst)
  | _, _ => Pure (NegErrno EINVAL, circ, dst)
  end.

(** [circ_buf_skip]. *)
Definition circ_buf_skip (circ : handle) (bytes : Z) : fallible (retval * handle) :=
  match circ with
  | None => Pure (NegErrno EINVAL, circ)
  | Some c =>
      let len := circ_buf_used circ in
      let bytes := if bytes >? len then len else bytes in
      Pure (Val (ssize_of bytes), Some (set_tail c (size_add (tail c) bytes)))
  end.

(** [circ_buf_write]. *)
Definition circ_buf_write (circ : handle) (src : ptr) (bytes : Z)
    : fallible (retval * handle) :=
  match circ, src with
  | Some c, Some _ =>
      let space := circ_buf_space circ in
      off <- size_rem (head c) (size c) ;;
      let bytes := if bytes >? space then space else bytes in
      let space := size_sub (size c) off in
      let space := if bytes <? space then bytes else space in
      blk <- memcpy (base c) off src 0 space ;;
      blk <- memcpy blk 0 src space (size_sub bytes space) ;;
      Pure (Val (ssize_of bytes),
            Some (set_head (set_base c blk) (size_add (head c) bytes)))
  | _, _ => Pure (NegErrno EINVAL, circ)
  end.

(** [circ_buf_overwrite]. *)
Definition circ_buf_overwrite (circ : handle) (src : ptr) (bytes : Z)
    : fallible (retval * handle) :=
  match circ, src with
  | Some c, Some _ =>
      let overwrite := 0 in
      let '(src, bytes) :=
        if bytes >? size c
        then (ptr_add src (size_sub bytes (size c)), size c)
        else (src, bytes) in
      let space := circ_buf_space circ in
      let overwrite := if bytes >? space then size_sub bytes space else overwrite in
      off <- size_rem (head c) (size c) ;;
      let space := size_sub (size c) off in
      let space := if bytes <? space then bytes else space in
      blk <- memcpy (base c) off src 0 space ;;
      blk <- memcpy blk 0 src space (size_sub bytes space) ;;
      let c := set_head (set_base c blk) (size_add (head c) bytes) in
      Pure (Val (ssize_of overwrite), Some (set_tail c (size_add (tail c) overwrite)))
  | _, _ => Pure (NegErrno EINVAL, circ)
  end.

(** [circ_buf_resize]. *)
Definition circ_buf_resize (kmm_malloc : allocator) (circ : handle) (bytes : Z)
    : fallible (retval * handle) :=
  match circ with
  | None => Pure (NegErrno EINVAL, circ)
  | Some c =>
      if external c then Pure (NegErrno EINVAL, circ)
      else
        match kmm_malloc bytes with
        | None => Pure (NegErrno ENOMEM, circ)
        | Some blk =>
            let tmp : ptr := Some blk in
            let len := circ_buf_used circ in
            '(circ, len) <-
              (if bytes <? len
               then '(_, circ) <- circ_buf_skip circ (size_sub len bytes) ;;
                    Pure (circ, bytes)
               else Pure (circ, len)) ;;
            '(_, circ, tmp) <- circ_buf_read circ tmp len ;;
            c <- deref circ ;;
            Pure (Val 0, Some (mk_circ_buf tmp bytes len 0 (external c)))
        end
  end.

End Operations.

(** ** States of the structure *)

Section States.
Context {sz : SizeT}.

(** A ring buffer in use: a nonzero capacity that fits [size_t], a block of
    that many bytes, and an occupancy (computed as the code does, modulo
    [SIZE_MOD]) within the capacity. *)
Definition ring (c : circ_buf_s) : Prop :=
  0 < size c < SIZE_MOD
  /\ circ_buf_used (Some c) <= size c
  /\ exists blk, base c = Some blk /\ len blk = size c.

(** A ring buffer whose cursors are in order, as the data model has them:
    the write cursor has not wrapped around [size_t] since the read cursor
    did, so it is at least the read cursor. *)
Definition valid (c : circ_buf_s) : Prop :=
  ring c /\ 0 <= tail c /\ tail c <= head c /\ head c < SIZE_MOD.

(** The resident bytes, oldest first: [circ_buf_used] bytes of the block read
    circularly from the physical offset of the read cursor. *)
Definition resident (c : circ_buf_s) : list byte :=
  match base c with
  | Some blk =>
      firstn (Z.to_nat (circ_buf_used (Some c)))
        (rotl (Z.to_nat (tail c mod size c)) blk)
  | None => []
  end.

(** The structure after a store of [b] bytes that made the read cursor give
    way by [ov]. *)
Definition stored (c : circ_buf_s) (blk' : list byte) (b ov : Z) : circ_buf_s :=
  mk_circ_buf (Some blk') (size c) (size_add (head c) b)
    (size_add (tail c) ov) (external c).

(** The calls that act on an initialized structure. *)
Inductive op : Type :=
| OpPeek (dst : ptr) (bytes : Z)
| OpRead (dst : ptr) (bytes : Z)
| OpSkip (bytes : Z)
| OpWrite (src : ptr) (bytes : Z)
| OpOverwrite (src : ptr) (bytes : Z)
| OpReset
| OpResize (kmm_malloc : allocator) (bytes : Z).

(** The [size_t] argument of a call. *)
Definition op_bytes (o : op) : Z :=
  match o with
  | OpPeek _ bytes | OpRead _ bytes | OpSkip bytes
  | OpWrite _ bytes | OpOverwrite _ bytes | OpResize _ bytes => bytes
  | OpReset => 0
  end.

Definition run_op (c : circ_buf_s) (o : op) : fallible (retval * handle) :=
  match o with
  | OpPeek dst bytes =>
      '(r, circ, _) <- circ_buf_peek (Some c) dst bytes ;; Pure (r, circ)
  | OpRead dst bytes =>
      '(r, circ, _) <- circ_buf_read (Some c) dst bytes ;; Pure (r, circ)
  | OpSkip bytes => circ_buf_skip (Some c) bytes
  | OpWrite src bytes => circ_buf_write (Some c) src bytes
  | OpOverwrite src bytes => circ_buf_overwrite (Some c) src bytes
  | OpReset => Pure (Val 0, circ_buf_reset (Some c))
  | OpResize kmm_malloc bytes => circ_buf_resize kmm_malloc (Some c) bytes
  end.

(** What the callers and the allocator owe the code: [kmm_malloc n] is
    [NULL] or a block of [n] bytes, and a block lent to [circ_buf_init] has
    the size it is announced with. *)
Definition allocator_ok (kmm_malloc : allocator) : Prop :=
  forall n blk, 0 <= n -> kmm_malloc n = Some blk -> len blk = n.

Definition block_ok (p : ptr) (bytes : Z) : Prop :=
  match p with
  | Some blk => len blk = bytes
  | None => True
  end.

Definition op_ok (o : op) : Prop :=
  size_t (op_bytes o)
  /\ match o with
     | OpResize kmm_malloc _ => allocator_ok kmm_malloc
     | _ => True
     end.

(** The block of the structure has the capacity for its size, and there is
    no block only when the capacity is zero. *)
Definition storage_ok (c : circ_buf_s) : Prop :=
  match base c with
  | Some blk => len blk = size c
  | None => size c = 0
  end.

(** The states a structure goes through: a successful [circ_buf_init], then
    calls that return.  A call that faults has no state after it; a resize
    that fails returns with the structure as it was.  [ok] restricts the
    calls that are followed. *)
Inductive reachable_by (ok : circ_buf_s -> op -> circ_buf_s -> Prop)
    : circ_buf_s -> Prop :=
| reach_init kmm_malloc circ base bytes c :
    size_t bytes -> allocator_ok kmm_malloc -> block_ok base bytes ->
    circ_buf_init kmm_malloc circ base bytes = (Val 0, Some c) ->
    reachable_by ok c
| reach_op c o r c' :
    reachable_by ok c ->
    op_ok o ->
    run_op c o = Pure (r, Some c') ->
    ok c o c' ->
    reachable_by ok c'.

Definition reachable : circ_buf_s -> Prop :=
  reachable_by (fun _ _ _ => True).

(** A call that adds to the write cursor without carrying out of [size_t]. *)
Definition head_not_wrapped (c : circ_buf_s) (o : op) (c' : circ_buf_s) : Prop :=
  match o with
  | OpWrite _ _ | OpOverwrite _ _ => head c <= head c'
  | _ => True
  end.

(** What every call preserves: the fields fit [size_t] and the occupancy,
    computed modulo [SIZE_MOD], is within the capacity. *)
Definition cursors_ok (c : circ_buf_s) : Prop :=
  size_t (size c) /\ size_t (head c) /\ size_t (tail c)
  /\ circ_buf_used (Some c) <= size c.

(** A run of calls, stopping at the first that does not return. *)
Fixpoint run_ops (c : circ_buf_s) (os : list op) : option circ_buf_s :=
  match os with
  | [] => Some c
  | o :: os =>
      match run_op c o with
      | Pure (_, Some c') => run_ops c' os
      | _ => None
      end
  end.

End States.

(** ** Concrete buffers *)

(** An allocator that always has a zeroed block, and one that never has. *)
Definition calloc : allocator := fun n => Some (repeat x00 (Z.to_nat n)).
Definition no_memory : allocator := fun _ => None.

(** The structure before [circ_buf_init]. *)
Definition fresh : circ_buf_s := mk_circ_buf NULL 0 0 0 false.

Definition ABCD : list byte := ["A"; "B"; "C"; "D"]%byte.
Definition ABCDEF : list byte := ["A"; "B"; "C"; "D"; "E"; "F"]%byte.
Definition CDEF : list byte := ["C"; "D"; "E"; "F"]%byte.
Definition DEF : list byte := ["D"; "E"; "F"]%byte.

(** Capacity 8, owned, empty: what [circ_buf_init] makes of [calloc 8]. *)
Definition empty8 : circ_buf_s := mk_circ_buf (Some (repeat x00 8)) 8 0 0 false.

(** Capacity 4, owned, empty. *)
Definition empty4 : circ_buf_s := mk_circ_buf (Some (repeat x00 4)) 4 0 0 false.

(** Capacity 4, owned, holding ["B"; "C"] at the places 1 and 2. *)
Definition holds_BC : circ_buf_s :=
  mk_circ_buf (Some [x00; "B"; "C"; x00]%byte) 4 3 1 false.

(** Capacity 4, borrowed, the same bytes. *)
Definition borrowed_BC : circ_buf_s :=
  mk_circ_buf (Some [x00; "B"; "C"; x00]%byte) 4 3 1 true.

(** Capacity 8, owned, after ["ABCDEF"] was written. *)
Definition holds_ABCDEF : circ_buf_s :=
  mk_circ_buf (Some (ABCDEF ++ [x00; x00])%byte) 8 6 0 false.

(** Capacity 4, owned, full of ["ABCD"], the cursors having gone round once. *)
Definition full_ABCD : circ_buf_s :=
  mk_circ_buf (Some ["C"; "D"; "A"; "B"]%byte) 4 10 6 false.

(** On a target with a 16-bit [size_t]: a borrowed block of 4096 bytes, the
    structure [circ_buf_init] makes over it, and a run that fills it and then
    fifteen times drains and refills it, 65536 bytes written in all. *)
Definition block16 : list byte := repeat x00 (Z.to_nat 4096).
Definition start16 : circ_buf_s := mk_circ_buf (Some block16) 4096 0 0 true.
Definition laps16 : list op :=
  OpWrite (Some block16) 4096
  :: concat (repeat [OpSkip 4096; OpWrite (Some block16) 4096] 15).
Definition wrapped16 : circ_buf_s := mk_circ_buf (Some block16) 4096 0 61440 true.


(** On the same target: a borrowed block of 40000 bytes, more than
    [SSIZE_MAX = 32767]; the structure [circ_buf_init] makes over it, and
    that structure once the whole block was written. *)
Definition block40000 : list byte := repeat x00 (Z.to_nat 40000).
Definition empty40000 : circ_buf_s := mk_circ_buf (Some block40000) 40000 0 0 true.
Definition full40000 : circ_buf_s := mk_circ_buf (Some block40000) 40000 40000 0 true.

End CircBuf.

(** * The buffer-chain queue: [mm/iob/iob_get_queue_size.c] *)

Module Iob.

(** Modelled from the spec: [struct iob_s], [struct iob_qentry_s] and
    [struct iob_queue_s] are declared in [include/nuttx/mm/iob.h], which is
    not among the sources.  The queue is a queue of linked buffer chains,
    each chain a linked list of segments of variable length.

    [struct iob_s], of which the function reads [io_len], an unsigned
    length; the chain linked through [io_flink] and ended by [NULL] is a
    list. *)
Record iob_s : Type := mk_iob { io_len : Z }.

(** [struct iob_qentry_s]: [qe_head] is the first segment of the entry's
    chain; the entries linked through [qe_flink] are a list. *)
Record iob_qentry_s : Type := mk_qentry { qe_head : list iob_s }.

(** [struct iob_queue_s]: [qh_head] is the first entry, the empty list when
    it is [NULL]. *)
Record iob_queue_s : Type := mk_queue { qh_head : list iob_qentry_s }.

Section QueueSize.
Context {sz : SizeT}.

(** The inner loop: [total += iob->io_len] along one chain. *)
Definition chain_size (total : Z) (chain : list iob_s) : Z :=
  fold_left (fun total iob => size_add total (io_len iob)) chain total.

(** [iob_get_queue_size]. *)
Definition iob_get_queue_size (queue : iob_queue_s) : Z :=
  fold_left (fun total iobq => chain_size total (qe_head iobq)) (qh_head queue) 0.

(** The sum of the segment lengths, as a mathematical integer. *)
Definition queue_bytes (queue : iob_queue_s) : Z :=
  list_sum_Z (map (fun iobq => list_sum_Z (map io_len (qe_head iobq))) (qh_head queue)).

End QueueSize.

(** A queue of two entries, with chains of two segments and of one. *)
Definition two_entries : iob_queue_s :=
  mk_queue [mk_qentry [mk_iob 196; mk_iob 60]; mk_qentry [mk_iob 44]].

End Iob.

(** * Lists cut into segments *)

Section Segments.
Context {A : Type}.
Implicit Types l a b : list A.

Lemma split_at l (k : nat) :
  (k <= length l)%nat -> exists a b, l = a ++ b /\ length a = k.
Proof.
  intros Hk. exists (firstn k l), (skipn k l). split.
  - symmetry. apply firstn_skipn.
  - rewrite length_firstn. lia.
Qed.

Lemma app_inj_length a a' b b' :
  length a = length a' -> a ++ b = a' ++ b' -> a = a' /\ b = b'.
Proof.
  revert a'.
  induction a as [|x a IH]; intros [|x' a'] Hlen Heq; simpl in *; try discriminate.
  - auto.
  - injection Heq as -> Heq. injection Hlen as Hlen.
    destruct (IH _ Hlen Heq) as [-> ->]. auto.
Qed.

Lemma firstn_none (k : nat) l : k = 0%nat -> firstn k l = [].
Proof. intros ->. reflexivity. Qed.

Lemma skipn_none (k : nat) l : k = 0%nat -> skipn k l = l.
Proof. intros ->. reflexivity. Qed.

End Segments.

(** [seg] pushes [firstn] and [skipn] through concatenations whose pieces
    have known lengths, until every piece is kept whole or dropped whole.
    It works from the inside out, on lists that are already flat. *)
Ltac seg_len :=
  unfold len in *;
  repeat rewrite ?length_app, ?length_firstn, ?length_skipn in *;
  simpl length in *; lia.

Ltac seg_flat l :=
  lazymatch l with
  | context [firstn _ _] => fail
  | context [skipn _ _] => fail
  | _ => idtac
  end.

Ltac seg_step :=
  match goal with
  | |- context [firstn ?k ?l] =>
      seg_flat l;
      first [ rewrite (@firstn_all2 _ k l) by seg_len
            | rewrite (firstn_none k l) by seg_len
            | lazymatch l with ?x ++ ?y => rewrite (firstn_app k x y) end ]
  | |- context [skipn ?k ?l] =>
      seg_flat l;
      first [ rewrite (@skipn_all2 _ k l) by seg_len
            | rewrite (skipn_none k l) by seg_len
            | lazymatch l with ?x ++ ?y => rewrite (skipn_app k x y) end ]
  | |- context [(?x ++ ?y) ++ ?z] => rewrite <- (app_assoc x y z)
  | |- context [?x ++ []] => rewrite (app_nil_r x)
  | |- context [[] ++ ?x] => rewrite (app_nil_l x)
  end.

Ltac seg := unfold rotl; repeat seg_step.

Section Rotation.
Context {A : Type}.
Implicit Types l R S : list A.

Lemma length_rotl (k : nat) l : length (rotl k l) = length l.
Proof. unfold rotl. rewrite length_app, length_firstn, length_skipn. lia. Qed.

(** Reading from [t] and then from [u] further on is reading from the
    offset [h] that [t + u] falls on. *)
Lemma rotl_rotl l (t u h : nat) :
  (t <= length l)%nat -> (u <= length l)%nat -> (h <= length l)%nat ->
  (h = t + u \/ h + length l = t + u)%nat ->
  rotl u (rotl t l) = rotl h l.
Proof.
  intros Ht Hu Hh [E|E].
  - destruct (split_at l t Ht) as (x & r & -> & Hx).
    destruct (split_at r u ltac:(seg_len)) as (y & z & -> & Hy).
    seg. reflexivity.
  - destruct (split_at l h Hh) as (x & r & -> & Hx).
    destruct (split_at r (t - h) ltac:(seg_len)) as (y & z & -> & Hy).
    assert (length z = (u - h))%nat by seg_len.
    seg. reflexivity.
Qed.

(** A block [R'] that, read from [u], shows [S] followed by what [R] showed
    there after its first [length S] places: read from the place of the
    oldest byte that survives, it shows the survivors of [firstn u R], then
    [S], then the places of [R] that were not reached. *)
Lemma rotl_store R R' S (u : nat) :
  length R' = length R -> (u <= length R)%nat -> (length S <= length R)%nat ->
  rotl u R' = S ++ skipn (length S) (rotl u R) ->
  let ov := (u + length S - length R)%nat in
  rotl ov R' = skipn ov (firstn u R) ++ S ++ skipn (u + length S) R.
Proof.
  intros HR Hu HS Hrot ov.
  destruct (split_at R u Hu) as (p & q & -> & Hp).
  destruct (split_at R' u ltac:(seg_len)) as (p' & q' & -> & Hp').
  assert (Hq : length q' = length q) by seg_len.
  revert Hrot. seg. intros Hrot.
  destruct (Nat.le_gt_cases (u + length S) (length p + length q)) as [Hfit|Hover].
  - destruct (split_at q (length S) ltac:(seg_len)) as (q1 & q2 & -> & Hq1).
    revert Hrot. seg. intros Hrot.
    assert (Hsplit : q' ++ p' = (S ++ q2) ++ p) by (rewrite <- app_assoc; exact Hrot).
    apply app_inj_length in Hsplit; [|seg_len].
    destruct Hsplit as [-> ->].
    subst ov. seg. reflexivity.
  - destruct (split_at S (length q) ltac:(seg_len)) as (s1 & s2 & -> & Hs1).
    destruct (split_at p (length s2) ltac:(seg_len)) as (p1 & p2 & -> & Hp1).
    destruct (split_at p' (length s2) ltac:(seg_len)) as (p1' & p2' & -> & Hp1').
    revert Hrot. seg. intros Hrot.
    assert (Hsplit : q' ++ p1' ++ p2' = s1 ++ s2 ++ p2) by exact Hrot.
    apply app_inj_length in Hsplit; [|seg_len].
    destruct Hsplit as [-> Hsplit].
    apply app_inj_length in Hsplit; [|seg_len].
    destruct Hsplit as [-> ->].
    subst ov. seg. reflexivity.
Qed.

End Rotation.

(** * Copies in two segments *)

Section TwoSegments.
Implicit Types blk s d : list byte.

Lemma memcpy_in_bounds d s (doff soff n : Z) :
  doff + n <= len d -> soff + n <= len s ->
  memcpy (Some d) doff (Some s) soff n =
  Pure (Some (firstn (Z.to_nat doff) d
                ++ firstn (Z.to_nat n) (skipn (Z.to_nat soff) s)
                ++ skipn (Z.to_nat (doff + n)) d)).
Proof.
  intros Hd Hs. unfold memcpy.
  destruct (Z.leb_spec (doff + n) (len d)); [|lia].
  destruct (Z.leb_spec (soff + n) (len s)); [|lia].
  reflexivity.
Qed.

Lemma splice_length d s (doff soff n : Z) :
  0 <= doff -> 0 <= soff -> 0 <= n ->
  doff + n <= len d -> soff + n <= len s ->
  len (firstn (Z.to_nat doff) d
         ++ firstn (Z.to_nat n) (skipn (Z.to_nat soff) s)
         ++ skipn (Z.to_nat (doff + n)) d) = len d.
Proof. intros. seg_len. Qed.

(** The two copies of [circ_buf_write] and [circ_buf_overwrite]: read from
    [off], the block shows the first [n] bytes of [s] in place of its own
    first [n]; every other place keeps its byte. *)
Lemma store_two_segments blk s (off n s1 : Z) :
  0 <= off <= len blk -> 0 <= n <= len blk -> n <= len s ->
  s1 = Z.min n (len blk - off) ->
  exists blk',
    (forall (B : Type) (k : ptr -> fallible B),
        (b1 <- memcpy (Some blk) off (Some s) 0 s1 ;;
         b2 <- memcpy b1 0 (Some s) s1 (n - s1) ;;
         k b2) = k (Some blk'))
    /\ len blk' = len blk
    /\ rotl (Z.to_nat off) blk'
       = firstn (Z.to_nat n) s ++ skipn (Z.to_nat n) (rotl (Z.to_nat off) blk).
Proof.
  intros Hoff Hn Hs ->.
  rewrite memcpy_in_bounds by lia. cbn [bind].
  rewrite memcpy_in_bounds by (rewrite ?splice_length; lia).
  eexists. split; [reflexivity|]. split.
  { rewrite splice_length; [apply splice_length| | | | |]; try lia.
    rewrite splice_length; lia. }
  destruct (split_at blk (Z.to_nat off) ltac:(seg_len)) as (x & y & -> & Hx).
  destruct (Z.le_gt_cases n (len (x ++ y) - off)) as [Hfit|Hover].
  - rewrite Z.min_l by lia.
    destruct (split_at y (Z.to_nat n) ltac:(seg_len)) as (y1 & y2 & -> & Hy1).
    destruct (split_at s (Z.to_nat n) ltac:(seg_len)) as (t1 & t2 & -> & Ht1).
    seg. reflexivity.
  - rewrite Z.min_r by lia.
    destruct (split_at s (length y) ltac:(seg_len)) as (t1 & r & -> & Ht1).
    destruct (split_at r (Z.to_nat n - length y) ltac:(seg_len)) as (t2 & t3 & -> & Ht2).
    destruct (split_at x (length t2) ltac:(seg_len)) as (x1 & x2 & -> & Hx1).
    seg. reflexivity.
Qed.

(** The two copies of [circ_buf_peek]: the destination receives the first
    [n] bytes of the block read from [off] and keeps the rest of its own. *)
Lemma load_two_segments blk d (off n l1 : Z) (B : Type) (k : ptr -> fallible B) :
  0 <= off <= len blk -> 0 <= n <= len blk -> n <= len d ->
  l1 = Z.min n (len blk - off) ->
  (d1 <- memcpy (Some d) 0 (Some blk) off l1 ;;
   d2 <- memcpy d1 l1 (Some blk) 0 (n - l1) ;;
   k d2)
  = k (Some (firstn (Z.to_nat n) (rotl (Z.to_nat off) blk)
               ++ skipn (Z.to_nat n) d)).
Proof.
  intros Hoff Hn Hd ->.
  rewrite memcpy_in_bounds by lia. cbn [bind].
  rewrite memcpy_in_bounds by (rewrite ?splice_length; lia).
  cbn [bind]. do 2 f_equal.
  destruct (split_at blk (Z.to_nat off) ltac:(seg_len)) as (x & y & -> & Hx).
  destruct (split_at d (Z.to_nat n) ltac:(seg_len)) as (e1 & e2 & -> & He1).
  destruct (Z.le_gt_cases n (len (x ++ y) - off)) as [Hfit|Hover].
  - rewrite Z.min_l by lia.
    destruct (split_at y (Z.to_nat n) ltac:(seg_len)) as (y1 & y2 & -> & Hy1).
    seg. reflexivity.
  - rewrite Z.min_r by lia.
    destruct (split_at x (Z.to_nat n - length y) ltac:(seg_len)) as (x1 & x2 & -> & Hx1).
    destruct (split_at e1 (length y) ltac:(seg_len)) as (e11 & e12 & -> & He11).
    seg. reflexivity.
Qed.

End TwoSegments.

(** * Properties of the ring buffer *)

Module CircBufSpec.
Import CircBuf.

Section Arithmetic.
Context {sz : SizeT}.

Lemma SIZE_MOD_large : 65536 <= SIZE_MOD.
Proof.
  unfold SIZE_MOD. change 65536 with (2 ^ 16).
  apply Z.pow_le_mono_r; [lia|]. apply SIZE_BITS_min.
Qed.

Lemma wrap_small z : 0 <= z < SIZE_MOD -> wrap z = z.
Proof. apply Z.mod_small. Qed.

Lemma wrap_range z : 0 <= wrap z < SIZE_MOD.
Proof. apply Z.mod_pos_bound. pose proof SIZE_MOD_large. lia. Qed.

Lemma wrap_wrap_add a b : wrap (wrap a + b) = wrap (a + b).
Proof. apply Zplus_mod_idemp_l. Qed.

Lemma wrap_wrap_sub a b : wrap (wrap a - b) = wrap (a - b).
Proof. apply Zminus_mod_idemp_l. Qed.

Lemma wrap_sub_wrap a b : wrap (a - wrap b) = wrap (a - b).
Proof. apply Zminus_mod_idemp_r. Qed.

Lemma size_sub_small a b : 0 <= b <= a -> a < SIZE_MOD -> size_sub a b = a - b.
Proof. intros. apply wrap_small. lia. Qed.

Lemma size_add_small a b : 0 <= a + b < SIZE_MOD -> size_add a b = a + b.
Proof. apply wrap_small. Qed.

(** The occupancy after the write cursor moved by [a] and the read cursor
    by [b]. *)
Lemma used_moved h t a b :
  size_sub (size_add h a) (size_add t b) = wrap (size_sub h t + a - b).
Proof.
  unfold size_sub, size_add.
  rewrite wrap_sub_wrap, wrap_wrap_sub.
  replace (wrap (h - t) + a - b) with (wrap (h - t) + (a - b)) by lia.
  rewrite wrap_wrap_add. f_equal. lia.
Qed.

(** [ssize_t] has the bits of [size_t], one of them for the sign. *)
Lemma SSIZE_MAX_half : SIZE_MOD = 2 * (SSIZE_MAX + 1).
Proof.
  unfold SSIZE_MAX, SIZE_MOD. pose proof SIZE_BITS_min.
  replace SIZE_BITS with (1 + (SIZE_BITS - 1)) at 1 by lia.
  rewrite Z.pow_add_r by lia. change (2 ^ 1) with 2. lia.
Qed.

Lemma ssize_of_small n : n <= SSIZE_MAX -> ssize_of n = n.
Proof. intros Hn. unfold ssize_of. destruct (Z.leb_spec n SSIZE_MAX); lia. Qed.

Lemma ssize_of_zero : ssize_of 0 = 0.
Proof.
  apply ssize_of_small. pose proof SSIZE_MAX_half. pose proof SIZE_MOD_large. lia.
Qed.

(** A count above [SSIZE_MAX] comes back negative. *)
Lemma ssize_of_large n : SSIZE_MAX < n < SIZE_MOD -> ssize_of n < 0.
Proof. intros Hn. unfold ssize_of. destruct (Z.leb_spec n SSIZE_MAX); lia. Qed.

Lemma wrap_ssize_of n : wrap (ssize_of n) = wrap n.
Proof.
  unfold ssize_of. destruct (n <=? SSIZE_MAX); [reflexivity|].
  unfold wrap. replace (n - SIZE_MOD) with (n + (-1) * SIZE_MOD) by lia.
  apply Z_mod_plus_full.
Qed.

(** The count assigned back from the [ssize_t] it was returned as. *)
Lemma size_of_ssize n : size_t n -> size_of_retval (Val (ssize_of n)) = n.
Proof. intros Hn. cbn [size_of_retval]. rewrite wrap_ssize_of. apply wrap_small, Hn. Qed.

Lemma size_add_ssize t n :
  size_add t (size_of_retval (Val (ssize_of n))) = size_add t n.
Proof.
  cbn [size_of_retval]. rewrite wrap_ssize_of. unfold size_add, wrap.
  apply Zplus_mod_idemp_r.
Qed.

Lemma gtb_min a b : (if a >? b then b else a) = Z.min a b.
Proof. rewrite Z.gtb_ltb. destruct (Z.ltb_spec b a); lia. Qed.

Lemma ltb_min a b : (if a <? b then a else b) = Z.min a b.
Proof. destruct (Z.ltb_spec a b); lia. Qed.

Lemma size_rem_nonzero a b : b <> 0 -> size_rem a b = Pure (a mod b).
Proof.
  intros Hb. unfold size_rem. destruct (Z.eqb_spec b 0); [contradiction|reflexivity].
Qed.

(** A physical offset moved on by at most one capacity lands on the sum
    or one capacity below it. *)
Lemma offset_moved (cursor k m : Z) :
  0 < m -> 0 <= k <= m ->
  let t := cursor mod m in
  let h := (cursor + k) mod m in
  0 <= t < m /\ 0 <= h < m /\ (h = t + k \/ h + m = t + k).
Proof.
  intros Hm Hk t h.
  pose proof (Z.mod_pos_bound cursor m Hm) as Ht.
  pose proof (Z.mod_pos_bound (cursor + k) m Hm) as Hh.
  fold t in Ht. fold h in Hh. repeat split; try lia.
  assert (E : h = (t + k) mod m).
  { subst h t. rewrite Zplus_mod_idemp_l. reflexivity. }
  destruct (Z.lt_ge_cases (t + k) m) as [Hlt|Hge].
  - left. rewrite E. apply Z.mod_small. lia.
  - right. rewrite E.
    replace (t + k) with (t + k - m + 1 * m) by lia.
    rewrite Z.mod_add by lia. rewrite Z.mod_small; lia.
Qed.

End Arithmetic.

Section Ring.
Context {sz : SizeT}.
Implicit Types c : circ_buf_s.

Lemma used_range c : 0 <= circ_buf_used (Some c) < SIZE_MOD.
Proof. apply wrap_range. Qed.

Lemma space_ring c :
  ring c -> circ_buf_space (Some c) = size c - circ_buf_used (Some c).
Proof.
  intros (Hsize & Hused & _). unfold circ_buf_space. cbn [circ_buf_size].
  pose proof (used_range c). apply size_sub_small; lia.
Qed.

Lemma used_valid c : valid c -> circ_buf_used (Some c) = head c - tail c.
Proof.
  intros (_ & Ht & Hth & Hh). cbn [circ_buf_used]. apply size_sub_small; lia.
Qed.

Lemma valid_ring c : valid c -> ring c.
Proof. intros [H _]. exact H. Qed.

Lemma length_resident c :
  ring c -> len (resident c) = circ_buf_used (Some c).
Proof.
  intros (Hsize & Hused & blk & Hbase & Hlen). unfold resident. rewrite Hbase.
  pose proof (used_range c).
  unfold len in *. rewrite length_firstn, length_rotl. lia.
Qed.

(** [circ_buf_peek] on a ring buffer. *)
Lemma peek_ring c d (bytes : Z) :
  ring c -> 0 <= bytes ->
  Z.min bytes (circ_buf_used (Some c)) <= len d ->
  circ_buf_peek (Some c) (Some d) bytes =
  Pure (Val (ssize_of (Z.min bytes (circ_buf_used (Some c)))), Some c,
        Some (firstn (Z.to_nat (Z.min bytes (circ_buf_used (Some c)))) (resident c)
                ++ skipn (Z.to_nat (Z.min bytes (circ_buf_used (Some c)))) d)).
Proof.
  intros (Hsize & Hused & blk & Hbase & Hlen) Hbytes Hd.
  pose proof (used_range c) as Hu.
  unfold circ_buf_peek, resident. rewrite Hbase.
  rewrite size_rem_nonzero by lia. cbn [bind].
  rewrite gtb_min, ltb_min.
  set (n := Z.min bytes (circ_buf_used (Some c))) in *.
  pose proof (Z.mod_pos_bound (tail c) (size c) ltac:(lia)) as Hoff.
  rewrite (size_sub_small (size c)) by lia.
  rewrite (size_sub_small n) by lia.
  rewrite (load_two_segments blk d (tail c mod size c) n) by lia.
  rewrite firstn_firstn.
  replace (Nat.min (Z.to_nat n) (Z.to_nat (circ_buf_used (Some c))))
    with (Z.to_nat n) by lia.
  reflexivity.
Qed.

(** Reading from the physical offset of a cursor moved on by [k]. *)
Lemma rotl_moved (blk : list byte) (cursor k : Z) :
  0 < len blk -> 0 <= k <= len blk ->
  rotl (Z.to_nat ((cursor + k) mod len blk)) blk
  = rotl (Z.to_nat k) (rotl (Z.to_nat (cursor mod len blk)) blk).
Proof.
  intros Hm Hk.
  destruct (offset_moved cursor k (len blk) Hm Hk) as (Ht & Hh & Hcase).
  symmetry. apply rotl_rotl; unfold len in *; lia.
Qed.

(** The resident bytes after [k] of the oldest were passed over. *)
Lemma resident_skipped c (k : Z) :
  valid c -> 0 <= k <= circ_buf_used (Some c) ->
  resident (set_tail c (size_add (tail c) k)) = skipn (Z.to_nat k) (resident c).
Proof.
  intros Hv Hk. pose proof (used_valid c Hv) as Hu.
  destruct Hv as ((Hsize & Hused & blk & Hbase & Hlen) & Ht & Hth & Hh).
  unfold resident. cbn [base tail size set_tail circ_buf_used head] in *.
  rewrite Hbase.
  rewrite (size_add_small (tail c) k) by lia.
  rewrite (size_sub_small (head c) (tail c + k)) by lia.
  rewrite Hu in *. rewrite <- Hlen.
  rewrite rotl_moved by lia.
  set (R := rotl (Z.to_nat (tail c mod len blk)) blk).
  assert (HR : length R = length blk) by apply length_rotl.
  destruct (split_at R (Z.to_nat (head c - tail c)) ltac:(seg_len)) as (p & q & -> & Hp).
  destruct (split_at p (Z.to_nat k) ltac:(seg_len)) as (p1 & p2 & -> & Hp1).
  seg. reflexivity.
Qed.

(** The resident bytes after [S] was stored at the write cursor and the
    read cursor gave way by the overflow. *)
Lemma resident_stored c (blk blk' S : list byte) (b ov : Z) :
  valid c -> base c = Some blk -> len blk' = size c ->
  0 <= b <= size c -> len S = b ->
  rotl (Z.to_nat (head c mod size c)) blk'
  = S ++ skipn (Z.to_nat b) (rotl (Z.to_nat (head c mod size c)) blk) ->
  ov = Z.max 0 (circ_buf_used (Some c) + b - size c) ->
  let c' := mk_circ_buf (Some blk') (size c) (size_add (head c) b)
              (size_add (tail c) ov) (external c) in
  circ_buf_used (Some c') = circ_buf_used (Some c) + b - ov
  /\ resident c' = skipn (Z.to_nat ov) (resident c) ++ S.
Proof.
  intros Hv Hbase Hlen' Hb HS Hrot Hov c'.
  pose proof (used_valid c Hv) as Hu.
  destruct Hv as ((Hsize & Hused & blk0 & Hbase0 & Hlen) & Ht & Hth & Hh).
  rewrite Hbase in Hbase0. injection Hbase0 as <-.
  assert (Hused' : circ_buf_used (Some c') = circ_buf_used (Some c) + b - ov).
  { subst c'. cbn [circ_buf_used head tail]. rewrite used_moved.
    cbn [circ_buf_used] in Hu, Hused, Hov. apply wrap_small. lia. }
  split; [exact Hused'|].
  unfold resident at 1. rewrite Hused'. subst c'. cbn [base tail size].
  unfold resident. rewrite Hbase. rewrite Hu in *.
  rewrite (size_add_small (tail c) ov) by lia.
  replace (head c) with (tail c + (head c - tail c)) in Hrot by lia.
  rewrite <- Hlen in Hrot at 2. rewrite <- Hlen' in Hrot at 1.
  rewrite !rotl_moved in Hrot by lia.
  rewrite <- Hlen' at 1. rewrite rotl_moved by lia.
  rewrite Hlen', <- Hlen in *.
  set (R := rotl (Z.to_nat (tail c mod len blk)) blk) in *.
  set (R' := rotl (Z.to_nat (tail c mod len blk)) blk') in *.
  assert (HR : length R = length blk) by apply length_rotl.
  assert (HR' : length R' = length R).
  { unfold R'. rewrite length_rotl. unfold len in *. lia. }
  replace (Z.to_nat b) with (length S) in Hrot by (unfold len in HS; lia).
  apply rotl_store in Hrot; [|exact HR'|seg_len|seg_len].
  cbv zeta in Hrot.
  replace (Z.to_nat (head c - tail c) + length S - length R)%nat
    with (Z.to_nat ov) in Hrot by seg_len.
  rewrite Hrot.
  set (P := skipn (Z.to_nat ov) (firstn (Z.to_nat (head c - tail c)) R)).
  set (Q := skipn (Z.to_nat (head c - tail c) + length S) R).
  assert (HP : length P = Z.to_nat (head c - tail c - ov)).
  { unfold P. rewrite length_skipn, length_firstn. seg_len. }
  seg. reflexivity.
Qed.

Lemma stored_ring c blk' (b ov : Z) :
  ring c -> len blk' = size c ->
  circ_buf_used (Some (stored c blk' b ov)) <= size c ->
  ring (stored c blk' b ov).
Proof.
  intros (Hsize & _ & _) Hlen Hused. unfold ring. cbn [stored size base].
  split; [lia|]. split; [exact Hused|]. exists blk'. auto.
Qed.

(** [circ_buf_write] on a ring buffer: the call returns, and the block
    changes only in the [n] places from the write cursor on. *)
Lemma write_ring c (s : list byte) (bytes : Z) :
  ring c -> len s = bytes ->
  let n := Z.min bytes (circ_buf_space (Some c)) in
  exists blk blk',
    base c = Some blk
    /\ circ_buf_write (Some c) (Some s) bytes
       = Pure (Val (ssize_of n),
               Some (set_head (set_base c (Some blk')) (size_add (head c) n)))
    /\ len blk' = size c
    /\ rotl (Z.to_nat (head c mod size c)) blk'
       = firstn (Z.to_nat n) s
           ++ skipn (Z.to_nat n) (rotl (Z.to_nat (head c mod size c)) blk).
Proof.
  intros Hr Hs n. pose proof (space_ring c Hr) as Hspace.
  destruct Hr as (Hsize & Hused & blk & Hbase & Hlen).
  pose proof (used_range c) as Hu.
  assert (Hn : 0 <= n <= size c) by (unfold len in Hs; lia).
  pose proof (Z.mod_pos_bound (head c) (size c) ltac:(lia)) as Hoff.
  destruct (store_two_segments blk s (head c mod size c) n
              (Z.min n (size c - head c mod size c)))
    as (blk' & Hcopy & Hlen' & Hrot); try lia.
  exists blk, blk'. split; [exact Hbase|]. split; [|split; [lia|exact Hrot]].
  unfold circ_buf_write. rewrite size_rem_nonzero by lia. cbn [bind].
  rewrite gtb_min, ltb_min. fold n.
  rewrite (size_sub_small (size c)) by lia.
  rewrite (size_sub_small n) by lia.
  rewrite Hbase, Hcopy. reflexivity.
Qed.

(** [circ_buf_overwrite] on a ring buffer. *)
Lemma overwrite_ring c (s : list byte) (bytes : Z) :
  ring c -> len s = bytes -> bytes < SIZE_MOD ->
  let b := Z.min bytes (size c) in
  let ov := Z.max 0 (b - circ_buf_space (Some c)) in
  let taken := skipn (Z.to_nat (bytes - b)) s in
  exists blk blk',
    base c = Some blk
    /\ circ_buf_overwrite (Some c) (Some s) bytes
       = Pure (Val (ssize_of ov), Some (stored c blk' b ov))
    /\ len blk' = size c
    /\ rotl (Z.to_nat (head c mod size c)) blk'
       = taken ++ skipn (Z.to_nat b) (rotl (Z.to_nat (head c mod size c)) blk).
Proof.
  intros Hr Hs Hbytes b ov taken. pose proof (space_ring c Hr) as Hspace.
  destruct Hr as (Hsize & Hused & blk & Hbase & Hlen).
  pose proof (used_range c) as Hu.
  assert (Hb : 0 <= b <= size c) by (unfold len in Hs; lia).
  pose proof (Z.mod_pos_bound (head c) (size c) ltac:(lia)) as Hoff.
  assert (Htaken : len taken = b).
  { unfold taken, len in *. rewrite length_skipn. lia. }
  destruct (store_two_segments blk taken (head c mod size c) b
              (Z.min b (size c - head c mod size c)))
    as (blk' & Hcopy & Hlen' & Hrot); try lia.
  rewrite firstn_all2 in Hrot by (unfold len in Htaken; lia).
  exists blk, blk'. split; [exact Hbase|]. split; [|split; [lia|exact Hrot]].
  unfold circ_buf_overwrite.
  assert (Hsrc : (if bytes >? size c
                  then @pair ptr Z (ptr_add (Some s) (size_sub bytes (size c))) (size c)
                  else @pair ptr Z (Some s) bytes) = @pair ptr Z (Some taken) b).
  { unfold taken, b. rewrite Z.gtb_ltb.
    destruct (Z.ltb_spec (size c) bytes).
    - rewrite size_sub_small by lia. rewrite Z.min_r by lia. reflexivity.
    - rewrite Z.min_l by lia. rewrite Z.sub_diag. reflexivity. }
  rewrite Hsrc.
  assert (Hov : (if b >? circ_buf_space (Some c)
                 then size_sub b (circ_buf_space (Some c)) else 0) = ov).
  { unfold ov. rewrite Z.gtb_ltb.
    destruct (Z.ltb_spec (circ_buf_space (Some c)) b).
    - rewrite size_sub_small by lia. lia.
    - lia. }
  rewrite Hov.
  rewrite size_rem_nonzero by lia. cbn [bind].
  rewrite ltb_min.
  rewrite (size_sub_small (size c)) by lia.
  rewrite (size_sub_small b) by lia.
  rewrite Hbase, Hcopy. reflexivity.
Qed.

End Ring.

(** ** What a call that returns has done *)

Ltac returned H :=
  repeat match type of H with
         | bind ?m _ = Pure _ =>
             let E := fresh "E" in
             destruct m eqn:E; cbn [bind] in H; [|discriminate H]
         | match ?x with _ => _ end = Pure _ =>
             let E := fresh "E" in destruct x eqn:E; try discriminate H
         end.

Section Returns.
Context {sz : SizeT}.
Implicit Types c : circ_buf_s.

Lemma peek_returns c dst bytes r circ' dst' :
  circ_buf_peek (Some c) dst bytes = Pure (r, circ', dst') ->
  circ' = Some c /\ r = Val (ssize_of (Z.min bytes (circ_buf_used (Some c)))).
Proof.
  unfold circ_buf_peek. intros H. returned H.
  rewrite gtb_min in H. injection H as <- <- _. auto.
Qed.

Lemma read_returns c dst bytes r circ' dst' :
  circ_buf_read (Some c) dst bytes = Pure (r, circ', dst') ->
  circ' = Some c
  \/ circ' = Some (set_tail c (size_add (tail c)
                                 (Z.min bytes (circ_buf_used (Some c))))).
Proof.
  unfold circ_buf_read. intros H. destruct dst as [d|].
  - returned H.
    match goal with
    | E : circ_buf_peek _ _ _ = Pure _ |- _ => apply peek_returns in E as [-> ->]
    end.
    match goal with E : deref _ = Pure _ |- _ => injection E as <- end.
    rewrite size_add_ssize in H. injection H as _ <- _. auto.
  - injection H as _ <- _. auto.
Qed.

Lemma skip_returns c bytes r circ' :
  circ_buf_skip (Some c) bytes = Pure (r, circ') ->
  circ' = Some (set_tail c (size_add (tail c)
                              (Z.min bytes (circ_buf_used (Some c))))).
Proof.
  unfold circ_buf_skip. rewrite gtb_min. intros H. injection H as _ <-. auto.
Qed.

Lemma write_returns c src bytes r circ' :
  circ_buf_write (Some c) src bytes = Pure (r, circ') ->
  circ' = Some c
  \/ exists blk,
      circ' = Some (set_head (set_base c blk)
                      (size_add (head c) (Z.min bytes (circ_buf_space (Some c))))).
Proof.
  unfold circ_buf_write. intros H. destruct src as [s|].
  - returned H. rewrite gtb_min in H. injection H as _ <-. eauto.
  - injection H as _ <-. auto.
Qed.

Lemma overwrite_returns c src bytes r circ' :
  circ_buf_overwrite (Some c) src bytes = Pure (r, circ') ->
  circ' = Some c
  \/ exists blk,
      let b := Z.min bytes (size c) in
      let ov := if b >? circ_buf_space (Some c)
                then size_sub b (circ_buf_space (Some c)) else 0 in
      circ' = Some (mk_circ_buf blk (size c) (size_add (head c) b)
                      (size_add (tail c) ov) (external c)).
Proof.
  unfold circ_buf_overwrite. intros H. destruct src as [s|].
  - right. rewrite Z.gtb_ltb in H.
    destruct (Z.ltb_spec (size c) bytes) as [Hlt|Hge].
    + returned H. injection H as _ <-. rewrite Z.min_r by lia. eexists. reflexivity.
    + returned H. injection H as _ <-. rewrite Z.min_l by lia. eexists. reflexivity.
  - injection H as _ <-. auto.
Qed.

Lemma resize_returns kmm_malloc c bytes r circ' :
  circ_buf_resize kmm_malloc (Some c) bytes = Pure (r, circ') ->
  circ' = Some c
  \/ exists blk,
      r = Val 0
      /\ circ' = Some (mk_circ_buf blk bytes
                         (Z.min bytes (circ_buf_used (Some c))) 0 false).
Proof.
  unfold circ_buf_resize. intros H.
  destruct (external c) eqn:Hext; [injection H as _ <-; auto|].
  destruct (kmm_malloc bytes) as [tmp|]; [|injection H as _ <-; auto].
  right. rewrite <- ltb_min.
  destruct (bytes <? circ_buf_used (Some c)).
  - cbn [bind circ_buf_skip] in H. returned H.
    match goal with
    | E : circ_buf_read _ _ _ = Pure _ |- _ => apply read_returns in E as [->| ->]
    end;
      match goal with E : deref _ = Pure _ |- _ => injection E as <- end;
      injection H as <- <-; cbn [set_tail external]; rewrite Hext; eauto.
  - cbn [bind] in H. returned H.
    match goal with
    | E : circ_buf_read _ _ _ = Pure _ |- _ => apply read_returns in E as [->| ->]
    end;
      match goal with E : deref _ = Pure _ |- _ => injection E as <- end;
      injection H as <- <-; cbn [set_tail external]; rewrite Hext; eauto.
Qed.

End Returns.

(** ** The cursors along a run *)

Section Cursors.
Context {sz : SizeT}.
Implicit Types c : circ_buf_s.

Lemma size_add_zero a : size_t a -> size_add a 0 = a.
Proof. intros Ha. rewrite size_add_small; unfold size_t in Ha; lia. Qed.

Lemma init_cursors_ok kmm_malloc circ base bytes c :
  size_t bytes ->
  circ_buf_init kmm_malloc circ base bytes = (Val 0, Some c) ->
  cursors_ok c /\ head c = 0 /\ tail c = 0.
Proof.
  intros Hbytes H. pose proof SIZE_MOD_large as HM.
  assert (Hc : size c = bytes /\ head c = 0 /\ tail c = 0).
  { unfold circ_buf_init in H. destruct circ as [c0|]; [|discriminate].
    destruct base as [b|].
    - destruct (bytes =? 0); [discriminate|]. injection H as <-. auto.
    - destruct (bytes =? 0).
      + injection H as <-. auto.
      + destruct (kmm_malloc bytes); [|discriminate]. injection H as <-. auto. }
  destruct Hc as (Hs & Hh & Ht). split; [|auto].
  unfold cursors_ok, size_t in *. cbn [circ_buf_used]. rewrite Hs, Hh, Ht.
  unfold size_sub. rewrite wrap_small; lia.
Qed.

(** A call that returns either moves the cursors forward, the read cursor
    within the occupancy and the write cursor within the room that leaves, or
    sets them anew with the read cursor at the origin. *)
Lemma run_op_moves c o r c' :
  cursors_ok c -> size_t (op_bytes o) ->
  run_op c o = Pure (r, Some c') ->
  (size c' = size c
   /\ exists a b,
       0 <= a /\ 0 <= b <= circ_buf_used (Some c)
       /\ circ_buf_used (Some c) + a - b <= size c
       /\ head c' = size_add (head c) a /\ tail c' = size_add (tail c) b
       /\ (head_not_wrapped c o c' -> head c <= head c'))
  \/ (size_t (size c') /\ tail c' = 0 /\ 0 <= head c' <= size c').
Proof.
  intros (Hsize & Hhead & Htail & Hused) Hbytes H.
  pose proof (used_range c) as Hu.
  assert (Hspace : circ_buf_space (Some c) = size c - circ_buf_used (Some c)).
  { unfold circ_buf_space. cbn [circ_buf_size].
    unfold size_t in Hsize. apply size_sub_small; lia. }
  assert (Hsame : size c = size c /\ exists a b,
             0 <= a /\ 0 <= b <= circ_buf_used (Some c)
             /\ circ_buf_used (Some c) + a - b <= size c
             /\ head c = size_add (head c) a /\ tail c = size_add (tail c) b
             /\ (head_not_wrapped c o c -> head c <= head c)).
  { split; [reflexivity|]. exists 0, 0. rewrite !size_add_zero by assumption.
    repeat split; lia. }
  assert (Hread : forall n, n = Z.min (op_bytes o) (circ_buf_used (Some c)) ->
             let c1 := set_tail c (size_add (tail c) n) in
             size c1 = size c /\ exists a b,
               0 <= a /\ 0 <= b <= circ_buf_used (Some c)
               /\ circ_buf_used (Some c) + a - b <= size c
               /\ head c1 = size_add (head c) a /\ tail c1 = size_add (tail c) b
               /\ (head_not_wrapped c o c1 -> head c <= head c1)).
  { intros n -> c1. split; [reflexivity|].
    exists 0, (Z.min (op_bytes o) (circ_buf_used (Some c))).
    subst c1. cbn [head tail set_tail]. rewrite size_add_zero by assumption.
    unfold size_t in Hbytes. repeat split; lia. }
  unfold size_t in Hbytes.
  destruct o as [dst bytes|dst bytes|bytes|src bytes|src bytes| |m bytes];
    cbn [run_op op_bytes] in *.
  - returned H.
    match goal with
    | E : circ_buf_peek _ _ _ = Pure _ |- _ => apply peek_returns in E as [E _]
    end.
    injection H as _ H. rewrite E in H. injection H as <-. left. exact Hsame.
  - returned H.
    match goal with
    | E : circ_buf_read _ _ _ = Pure _ |- _ => apply read_returns in E as [E|E]
    end;
      injection H as _ H; rewrite E in H; injection H as <-; left;
        [exact Hsame|apply Hread; reflexivity].
  - apply skip_returns in H. injection H as ->. left. apply Hread. reflexivity.
  - apply write_returns in H as [H|(blk & H)]; injection H as ->; left;
      [exact Hsame|].
    split; [reflexivity|].
    exists (Z.min bytes (circ_buf_space (Some c))), 0.
    cbn [head tail set_head set_base]. rewrite size_add_zero by assumption.
    repeat split; try lia. intros Hw. exact Hw.
  - apply overwrite_returns in H as [H|(blk & H)]; injection H as ->; left;
      [exact Hsame|].
    split; [reflexivity|]. cbn [head tail].
    rewrite Hspace. unfold size_t in Hsize.
    exists (Z.min bytes (size c)). eexists.
    split; [lia|]. split; [|split; [|split; [reflexivity|split; [reflexivity|]]]].
    + rewrite Z.gtb_ltb.
      destruct (Z.ltb_spec (size c - circ_buf_used (Some c)) (Z.min bytes (size c)));
        [rewrite size_sub_small by lia|]; lia.
    + rewrite Z.gtb_ltb.
      destruct (Z.ltb_spec (size c - circ_buf_used (Some c)) (Z.min bytes (size c)));
        [rewrite size_sub_small by lia|]; lia.
    + intros Hw. exact Hw.
  - injection H as _ <-. right. clear Hsame Hread. cbn. unfold size_t in *. lia.
  - apply resize_returns in H as [H|(blk & _ & H)]; injection H as ->;
      [left; exact Hsame|].
    right. clear Hsame Hread. cbn [size head tail circ_buf_used] in *.
    unfold size_t. lia.
Qed.

Lemma run_op_cursors_ok c o r c' :
  cursors_ok c -> size_t (op_bytes o) ->
  run_op c o = Pure (r, Some c') -> cursors_ok c'.
Proof.
  intros Hc Hbytes H. pose proof (used_range c) as Hu.
  destruct (run_op_moves c o r c' Hc Hbytes H)
    as [(Hs & a & b & Ha & Hb & Hfit & Hh & Ht & _)|(Hs & Ht & Hh)].
  - destruct Hc as (Hsize & _ & _ & Hused). unfold cursors_ok.
    rewrite Hs. cbn [circ_buf_used]. rewrite Hh, Ht.
    split; [exact Hsize|]. split; [apply wrap_range|]. split; [apply wrap_range|].
    rewrite used_moved. cbn [circ_buf_used] in *. unfold size_t in Hsize.
    rewrite wrap_small; lia.
  - unfold cursors_ok, size_t in *. cbn [circ_buf_used]. rewrite Ht.
    unfold size_sub. rewrite wrap_small; lia.
Qed.

Lemma reachable_cursors_ok ok c : reachable_by ok c -> cursors_ok c.
Proof.
  induction 1 as [m circ b bytes c Hbytes _ _ Hinit|c o r c' _ IH [Hbytes _] Hrun _].
  - apply (init_cursors_ok m circ b bytes c Hbytes Hinit).
  - exact (run_op_cursors_ok c o r c' IH Hbytes Hrun).
Qed.

Lemma reachable_unwrapped c :
  reachable_by head_not_wrapped c -> tail c <= head c.
Proof.
  induction 1 as [m circ b bytes c Hbytes _ _ Hinit
                 |c o r c' Hreach IH [Hbytes _] Hrun Hok].
  - destruct (init_cursors_ok m circ b bytes c Hbytes Hinit) as (_ & -> & ->). lia.
  - pose proof (reachable_cursors_ok _ _ Hreach) as Hc.
    pose proof (used_range c) as Hu.
    destruct (run_op_moves c o r c' Hc Hbytes Hrun)
      as [(Hs & a & b & Ha & Hb & Hfit & Hh & Ht & Hw)|(Hs & Ht & Hh)]; [|lia].
    specialize (Hw Hok).
    destruct Hc as (Hsize & Hhead & Htail & Hused).
    unfold size_t in *. cbn [circ_buf_used] in *.
    rewrite (size_sub_small (head c) (tail c)) in * by lia.
    assert (Hnowrap : head c + a < SIZE_MOD).
    { destruct (Z.lt_ge_cases (head c + a) SIZE_MOD) as [Hlt|Hge]; [exact Hlt|].
      exfalso. rewrite Hh in Hw. unfold size_add, wrap in Hw.
      replace (head c + a) with (head c + a - SIZE_MOD + 1 * SIZE_MOD) in Hw by lia.
      rewrite Z.mod_add in Hw by lia. rewrite Z.mod_small in Hw; lia. }
    rewrite Hh, Ht. rewrite !size_add_small; lia.
Qed.

End Cursors.

(** ** The block along a run *)

Section Storage.
Context {sz : SizeT}.
Implicit Types c : circ_buf_s.

Lemma memcpy_returns dst (doff : Z) src (soff n : Z) p :
  0 <= doff -> 0 <= soff -> 0 <= n ->
  memcpy dst doff src soff n = Pure p ->
  exists d b, dst = Some d /\ p = Some b /\ len b = len d.
Proof.
  intros Hd Hs Hn H. unfold memcpy in H.
  destruct dst as [d|]; [|discriminate]. destruct src as [s|]; [|discriminate].
  destruct (Z.leb_spec (doff + n) (len d)); [|discriminate].
  destruct (Z.leb_spec (soff + n) (len s)); [|discriminate].
  injection H as <-. exists d. eexists. split; [reflexivity|].
  split; [reflexivity|]. apply splice_length; lia.
Qed.

Lemma size_rem_returns (a b r : Z) :
  0 <= b -> size_rem a b = Pure r -> 0 < b /\ 0 <= r < b.
Proof.
  intros Hb H. unfold size_rem in H. destruct (Z.eqb_spec b 0); [discriminate|].
  injection H as <-. split; [lia|]. apply Z.mod_pos_bound. lia.
Qed.

(** The two copies of a call that returned kept the length of the block
    they wrote to. *)
Lemma copies_return (blk src : ptr) (doff1 soff1 n1 doff2 soff2 n2 : Z) p1 p2 :
  memcpy blk doff1 src soff1 n1 = Pure p1 ->
  memcpy p1 doff2 src soff2 n2 = Pure p2 ->
  0 <= doff1 -> 0 <= soff1 -> 0 <= n1 -> 0 <= doff2 -> 0 <= soff2 -> 0 <= n2 ->
  exists d b, blk = Some d /\ p2 = Some b /\ len b = len d.
Proof.
  intros H1 H2 ? ? ? ? ? ?.
  apply memcpy_returns in H1 as (d & b1 & -> & -> & Hl1); try assumption.
  apply memcpy_returns in H2 as (d2 & b2 & Hd2 & -> & Hl2); try assumption.
  injection Hd2 as <-. exists d, b2. repeat split. lia.
Qed.

Lemma peek_dst c dst (bytes : Z) r circ' dst' :
  0 <= size c -> 0 <= bytes ->
  circ_buf_peek (Some c) dst bytes = Pure (r, circ', dst') ->
  exists d d', dst = Some d /\ dst' = Some d' /\ len d' = len d.
Proof.
  intros Hsize Hbytes H. pose proof (used_range c) as Hu.
  unfold circ_buf_peek in H. returned H. rewrite ?gtb_min, ?ltb_min in *.
  match goal with
  | E : size_rem _ _ = Pure ?a |- _ =>
      apply size_rem_returns in E as (Hpos & Hoff); [|exact Hsize];
      pose proof (wrap_range (size c - a))
  end.
  match goal with
  | E1 : memcpy dst _ _ _ _ = Pure ?p1, E2 : memcpy ?p1 _ _ _ ?n2 = Pure ?p2 |- _ =>
      destruct (copies_return _ _ _ _ _ _ _ _ _ _ E1 E2)
        as (d & b & -> & -> & Hl);
        try apply wrap_range; try (unfold size_sub; lia)
  end.
  injection H as _ _ <-. eauto.
Qed.

Lemma write_storage c src (bytes : Z) r c' :
  cursors_ok c -> storage_ok c -> 0 <= bytes ->
  circ_buf_write (Some c) src bytes = Pure (r, Some c') -> storage_ok c'.
Proof.
  intros (Hsize & _) Hst Hbytes H. unfold size_t in Hsize.
  unfold circ_buf_write in H. destruct src as [s|]; [|injection H as _ <-; exact Hst].
  returned H. rewrite ?gtb_min, ?ltb_min in *.
  match goal with
  | E : size_rem _ _ = Pure ?a |- _ =>
      apply size_rem_returns in E as (Hpos & Hoff); [|lia];
      pose proof (wrap_range (size c - a))
  end.
  pose proof (wrap_range (circ_buf_size (Some c) - circ_buf_used (Some c))).
  match goal with
  | E1 : memcpy (base c) _ _ _ _ = Pure ?p1, E2 : memcpy ?p1 _ _ _ _ = Pure _ |- _ =>
      destruct (copies_return _ _ _ _ _ _ _ _ _ _ E1 E2)
        as (d & b & Hd & -> & Hl);
        try apply wrap_range; try (unfold circ_buf_space, size_sub; lia)
  end.
  injection H as _ <-. unfold storage_ok in *. cbn [base size set_head set_base].
  rewrite Hd in Hst. lia.
Qed.

Lemma overwrite_storage c src (bytes : Z) r c' :
  cursors_ok c -> storage_ok c -> 0 <= bytes ->
  circ_buf_overwrite (Some c) src bytes = Pure (r, Some c') -> storage_ok c'.
Proof.
  intros (Hsize & _) Hst Hbytes H. unfold size_t in Hsize.
  unfold circ_buf_overwrite in H.
  destruct src as [s|]; [|injection H as _ <-; exact Hst].
  destruct (bytes >? size c); returned H; rewrite ?ltb_min in *;
    match goal with
    | E : size_rem _ _ = Pure ?a |- _ =>
        apply size_rem_returns in E as (Hpos & Hoff); [|lia];
        pose proof (wrap_range (size c - a))
    end;
    match goal with
    | E1 : memcpy (base c) _ _ _ _ = Pure ?p1, E2 : memcpy ?p1 _ _ _ _ = Pure _ |- _ =>
        destruct (copies_return _ _ _ _ _ _ _ _ _ _ E1 E2)
          as (d & b & Hd & -> & Hl);
          try apply wrap_range; try (unfold size_sub; lia)
    end;
    injection H as _ <-; unfold storage_ok in *;
    cbn [base size set_tail set_head set_base]; rewrite Hd in Hst; lia.
Qed.

Lemma resize_storage kmm_malloc c (bytes : Z) r c' :
  cursors_ok c -> storage_ok c -> 0 <= bytes -> allocator_ok kmm_malloc ->
  circ_buf_resize kmm_malloc (Some c) bytes = Pure (r, Some c') -> storage_ok c'.
Proof.
  intros (Hsize & _) Hst Hbytes Halloc H. unfold size_t in Hsize.
  pose proof (used_range c) as Hu.
  unfold circ_buf_resize in H.
  destruct (external c); [injection H as _ <-; exact Hst|].
  destruct (kmm_malloc bytes) as [tmp|] eqn:Hm; [|injection H as _ <-; exact Hst].
  apply Halloc in Hm; [|exact Hbytes].
  assert (Hread : forall c1 n r1 circ1 tmp1,
             size c1 = size c -> 0 <= n ->
             circ_buf_read (Some c1) (Some tmp) n = Pure (r1, circ1, tmp1) ->
             exists b, tmp1 = Some b /\ len b = bytes).
  { intros c1 n r1 circ1 tmp1 Hs1 Hn Hr. unfold circ_buf_read in Hr. returned Hr.
    match goal with
    | E : circ_buf_peek _ _ _ = Pure _ |- _ =>
        apply peek_dst in E as (d & d' & Hd & -> & Hl); [|lia|exact Hn]
    end.
    injection Hd as <-. injection Hr as _ _ <-. exists d'. split; [reflexivity|lia]. }
  destruct (Z.ltb_spec bytes (circ_buf_used (Some c))).
  - cbn [bind circ_buf_skip] in H. returned H.
    match goal with
    | E : circ_buf_read _ _ _ = Pure _ |- _ =>
        apply Hread in E as (b & -> & Hb); [|reflexivity|exact Hbytes]
    end.
    injection H as _ <-. unfold storage_ok. cbn [base size]. exact Hb.
  - cbn [bind] in H. returned H.
    match goal with
    | E : circ_buf_read _ _ _ = Pure _ |- _ =>
        apply Hread in E as (b & -> & Hb); [|reflexivity|lia]
    end.
    injection H as _ <-. unfold storage_ok. cbn [base size]. exact Hb.
Qed.

Lemma init_storage kmm_malloc circ base bytes c :
  0 <= bytes -> allocator_ok kmm_malloc -> block_ok base bytes ->
  circ_buf_init kmm_malloc circ base bytes = (Val 0, Some c) -> storage_ok c.
Proof.
  intros Hbytes Halloc Hblock H. unfold circ_buf_init in H.
  destruct circ as [c0|]; [|discriminate]. destruct base as [b|].
  - destruct (bytes =? 0); [discriminate|]. injection H as <-. exact Hblock.
  - destruct (Z.eqb_spec bytes 0) as [->|Hnz].
    + injection H as <-. reflexivity.
    + destruct (kmm_malloc bytes) as [blk|] eqn:Hm; [|discriminate].
      injection H as <-. apply (Halloc bytes blk Hbytes Hm).
Qed.

Lemma run_op_storage c o r c' :
  cursors_ok c -> storage_ok c -> op_ok o ->
  run_op c o = Pure (r, Some c') -> storage_ok c'.
Proof.
  intros Hc Hst [Hbytes Hsup] H. unfold size_t in Hbytes.
  destruct o as [dst bytes|dst bytes|bytes|src bytes|src bytes| |m bytes];
    cbn [run_op op_bytes] in *.
  - returned H.
    match goal with
    | E : circ_buf_peek _ _ _ = Pure _ |- _ => apply peek_returns in E as [E _]
    end.
    injection H as _ H. rewrite E in H. injection H as <-. exact Hst.
  - returned H.
    match goal with
    | E : circ_buf_read _ _ _ = Pure _ |- _ => apply read_returns in E as [E|E]
    end;
      injection H as _ H; rewrite E in H; injection H as <-; exact Hst.
  - apply skip_returns in H. injection H as ->. exact Hst.
  - apply (write_storage c src bytes r c' Hc Hst); [lia|exact H].
  - apply (overwrite_storage c src bytes r c' Hc Hst); [lia|exact H].
  - injection H as _ <-. exact Hst.
  - apply (resize_storage m c bytes r c' Hc Hst); [lia|exact Hsup|exact H].
Qed.

Lemma reachable_storage ok c : reachable_by ok c -> storage_ok c.
Proof.
  induction 1 as [m circ b bytes c Hbytes Halloc Hblock Hinit
                 |c o r c' Hreach IH Hop Hrun _].
  - unfold size_t in Hbytes.
    apply (init_storage m circ b bytes c); [lia|assumption..].
  - exact (run_op_storage c o r c' (reachable_cursors_ok _ _ Hreach) IH Hop Hrun).
Qed.

(** Every state reached with a capacity that is not zero is a ring buffer,
    and one reached without the write cursor wrapping has its cursors in
    order. *)
Lemma reachable_ring ok c : reachable_by ok c -> size c <> 0 -> ring c.
Proof.
  intros Hreach Hnz. pose proof (reachable_storage _ _ Hreach) as Hst.
  destruct (reachable_cursors_ok _ _ Hreach) as (Hsize & _ & _ & Hused).
  unfold size_t in Hsize. unfold ring. split; [lia|]. split; [exact Hused|].
  unfold storage_ok in Hst. destruct (base c) as [blk|]; [|contradiction].
  exists blk. auto.
Qed.

Lemma reachable_valid c :
  reachable_by head_not_wrapped c -> size c <> 0 -> valid c.
Proof.
  intros Hreach Hnz. split; [exact (reachable_ring _ _ Hreach Hnz)|].
  pose proof (reachable_unwrapped c Hreach) as Hth.
  destruct (reachable_cursors_ok _ _ Hreach) as (_ & Hh & Ht & _).
  unfold size_t in *. lia.
Qed.

End Storage.

(** ** The data-movement calls *)

Section DataMovement.
Context {sz : SizeT}.
Implicit Types c : circ_buf_s.

(** C8, as amended.  On every ring buffer of nonzero capacity ([ring]: a
    block of nonzero capacity and an occupancy within it, whether or not a
    cursor has wrapped) [circ_buf_peek] copies [n = min (bytes, occupancy)]
    bytes, read from the physical offset of the read cursor on ([resident]
    is the block read circularly from [tail % size]), to the start of the
    destination, and returns [n] as [ssize_t]: [n] itself when [n] is at
    most [SSIZE_MAX].  The structure it leaves is
    the structure it was given, so neither cursor moves and occupancy and
    free space stay as they were.  [return -EINVAL] is taken for an absent
    handle only: whatever the destination, [NULL] included, a call on a
    present handle does not take it, and the number it returns is not
    negative when [n] is at most [SSIZE_MAX]. *)
Theorem peek_spec c (d : list byte) (bytes : Z) :
  ring c -> 0 <= bytes ->
  Z.min bytes (circ_buf_used (Some c)) <= len d ->
  let n := Z.min bytes (circ_buf_used (Some c)) in
  circ_buf_peek (Some c) (Some d) bytes
  = Pure (Val (ssize_of n), Some c,
          Some (firstn (Z.to_nat n) (resident c) ++ skipn (Z.to_nat n) d))
  /\ (n <= SSIZE_MAX -> ssize_of n = n)
  /\ (forall dst m, circ_buf_peek None dst m = Pure (NegErrno EINVAL, None, dst))
  /\ (forall circ dst m e circ' dst',
         circ_buf_peek circ dst m = Pure (NegErrno e, circ', dst') -> circ = None)
  /\ (forall dst r circ' dst',
         circ_buf_peek (Some c) dst bytes = Pure (r, circ', dst') ->
         n <= SSIZE_MAX -> 0 <= ssize_value r).
Proof.
  intros Hr Hbytes Hd n. split; [|split; [|split; [|split]]].
  - apply peek_ring; assumption.
  - apply ssize_of_small.
  - reflexivity.
  - intros [c0|] dst m e circ' dst' H; [|reflexivity].
    apply peek_returns in H as [_ H]. discriminate H.
  - intros dst r circ' dst' H Hn. apply peek_returns in H as [_ ->].
    fold n. cbn [ssize_value]. rewrite ssize_of_small by exact Hn.
    pose proof (used_range c). lia.
Qed.

(** [circ_buf_read] on a ring buffer. *)
Lemma read_ring c (d : list byte) (bytes : Z) :
  ring c -> 0 <= bytes ->
  Z.min bytes (circ_buf_used (Some c)) <= len d ->
  let n := Z.min bytes (circ_buf_used (Some c)) in
  circ_buf_read (Some c) (Some d) bytes
  = Pure (Val (ssize_of n), Some (set_tail c (size_add (tail c) n)),
          Some (firstn (Z.to_nat n) (resident c) ++ skipn (Z.to_nat n) d)).
Proof.
  intros Hr Hbytes Hd n. unfold circ_buf_read.
  rewrite peek_ring by assumption. fold n. cbn [bind deref].
  pose proof (used_range c) as Hu.
  rewrite size_of_ssize by (unfold size_t; lia). reflexivity.
Qed.

Lemma valid_tail c : valid c -> size_add (tail c) 0 = tail c.
Proof.
  intros (_ & Ht & Hth & Hh). apply size_add_zero. unfold size_t. lia.
Qed.

(** [circ_buf_write] on a ring buffer whose cursors are in order: what it
    returns and the resident bytes it leaves. *)
Lemma write_valid c (s : list byte) (bytes : Z) :
  valid c -> len s = bytes ->
  let n := Z.min bytes (circ_buf_space (Some c)) in
  exists blk blk',
    base c = Some blk
    /\ circ_buf_write (Some c) (Some s) bytes
       = Pure (Val (ssize_of n), Some (stored c blk' n 0))
    /\ len blk' = size c
    /\ rotl (Z.to_nat (head c mod size c)) blk'
       = firstn (Z.to_nat n) s
           ++ skipn (Z.to_nat n) (rotl (Z.to_nat (head c mod size c)) blk)
    /\ circ_buf_used (Some (stored c blk' n 0)) = circ_buf_used (Some c) + n
    /\ resident (stored c blk' n 0) = resident c ++ firstn (Z.to_nat n) s.
Proof.
  intros Hv Hs n. pose proof (valid_ring c Hv) as Hr.
  pose proof (space_ring c Hr) as Hspace. pose proof (used_range c) as Hu.
  destruct (write_ring c s bytes Hr Hs) as (blk & blk' & Hbase & Hw & Hlen & Hrot).
  fold n in Hw, Hrot.
  assert (Hn : 0 <= n <= size c).
  { destruct Hr as (_ & Hused & _). unfold len in Hs. lia. }
  assert (HS : len (firstn (Z.to_nat n) s) = n).
  { unfold len in *. rewrite length_firstn. lia. }
  destruct (resident_stored c blk blk' (firstn (Z.to_nat n) s) n 0
              Hv Hbase Hlen Hn HS Hrot)
    as (Hused & Hres).
  { destruct Hr as (_ & Hused & _). lia. }
  rewrite skipn_0 in Hres. rewrite Z.sub_0_r in Hused.
  exists blk, blk'. split; [exact Hbase|]. split.
  - rewrite Hw. unfold stored. rewrite (valid_tail c Hv). reflexivity.
  - split; [exact Hlen|]. split; [exact Hrot|]. split; [exact Hused|exact Hres].
Qed.



Lemma skipped_ring c (k : Z) :
  valid c -> 0 <= k <= circ_buf_used (Some c) ->
  let c1 := set_tail c (size_add (tail c) k) in
  ring c1 /\ circ_buf_used (Some c1) = circ_buf_used (Some c) - k.
Proof.
  intros Hv Hk c1. pose proof (used_valid c Hv) as Hu.
  destruct Hv as ((Hsize & Hused & blk & Hbase & Hlen) & Ht & Hth & Hh).
  assert (E : circ_buf_used (Some c1) = circ_buf_used (Some c) - k).
  { subst c1. cbn [circ_buf_used head tail set_tail] in *.
    rewrite (size_add_small (tail c) k) by lia.
    rewrite size_sub_small by lia. lia. }
  split; [|exact E]. unfold ring. rewrite E. subst c1. cbn [size base set_tail].
  split; [exact Hsize|]. split; [lia|]. exists blk. auto.
Qed.

(** C2, as amended.  On an empty ring buffer ([valid], so of nonzero
    capacity), for a source [x] no longer than the capacity and a
    destination [y] that has room for it: the write of [x] returns [len x]
    as [ssize_t], which is [len x] itself when [len x] is at most
    [SSIZE_MAX]; the read into [y] that follows returns the same and leaves
    [x] in the first [len x] places of [y] (so [y] is [x] when the lengths
    are equal), and the buffer is empty again. *)
Theorem write_read_roundtrip c (x y : list byte) :
  valid c -> circ_buf_is_empty (Some c) = true ->
  len x <= size c -> len x <= len y ->
  exists c1 c2,
    circ_buf_write (Some c) (Some x) (len x)
    = Pure (Val (ssize_of (len x)), Some c1)
    /\ circ_buf_read (Some c1) (Some y) (len y)
       = Pure (Val (ssize_of (len x)), Some c2, Some (x ++ skipn (length x) y))
    /\ (len x <= SSIZE_MAX -> ssize_of (len x) = len x)
    /\ circ_buf_is_empty (Some c2) = true.
Proof.
  intros Hv Hempty Hfit Hroom. pose proof (valid_ring c Hv) as Hr.
  pose proof (space_ring c Hr) as Hspace.
  apply Z.eqb_eq in Hempty.
  destruct (write_valid c x (len x) Hv eq_refl)
    as (blk & blk' & Hbase & Hw & Hlen & _ & Hused1 & Hres).
  assert (Hn : Z.min (len x) (circ_buf_space (Some c)) = len x) by lia.
  rewrite Hn in *.
  set (c1 := stored c blk' (len x) 0) in *.
  assert (Hx : Z.to_nat (len x) = length x) by (unfold len; lia).
  assert (Hnil : resident c = []).
  { pose proof (length_resident c Hr) as HL. rewrite Hempty in HL.
    unfold len in HL. destruct (resident c); [reflexivity|simpl in HL; lia]. }
  rewrite Hnil, Hx, firstn_all in Hres. cbn [app] in Hres.
  rewrite Hempty, Z.add_0_l in Hused1.
  assert (Hr1 : ring c1).
  { apply stored_ring; [exact Hr|exact Hlen|]. fold c1. lia. }
  assert (Hm : Z.min (len y) (circ_buf_used (Some c1)) = len x) by lia.
  exists c1. eexists. split; [exact Hw|]. split; [|split].
  - rewrite (read_ring c1 y (len y) Hr1) by (unfold len; lia).
    rewrite Hm, Hres, Hx, firstn_all. reflexivity.
  - apply ssize_of_small.
  - apply Z.eqb_eq. cbn [circ_buf_used head tail set_tail].
    rewrite <- (size_add_zero (head c1)).
    + rewrite used_moved. cbn [circ_buf_used] in Hused1. rewrite Hused1.
      replace (len x + 0 - len x) with 0 by lia. reflexivity.
    + subst c1. cbn [head stored]. apply wrap_range.
Qed.


(** C6.  [circ_buf_resize] returns [-EINVAL] on every borrowed buffer and
    [-ENOMEM] on an owned one when the allocator has no block to give, and
    the structure it leaves is in both cases the one it was given: block,
    capacity, both cursors and ownership flag. *)
Theorem resize_failure (kmm_malloc : allocator) c (bytes : Z) :
  (external c = true ->
   circ_buf_resize kmm_malloc (Some c) bytes = Pure (NegErrno EINVAL, Some c))
  /\ (external c = false -> kmm_malloc bytes = None ->
      circ_buf_resize kmm_malloc (Some c) bytes = Pure (NegErrno ENOMEM, Some c)).
Proof.
  unfold circ_buf_resize. split.
  - intros ->. reflexivity.
  - intros -> ->. reflexivity.
Qed.

End DataMovement.

(** ** The queries and the zero capacity *)

Section Queries.
Context {sz : SizeT}.

(** C7, as amended.  The five queries are functions of the structure alone:
    they read fields and return a value, nothing else.  On an absent handle
    [circ_buf_size], [circ_buf_used] and [circ_buf_space] return [0], and
    [circ_buf_is_empty] and [circ_buf_is_full], the negations of the last
    two, both return [true]. *)
Theorem queries_on_null :
  circ_buf_size None = 0
  /\ circ_buf_used None = 0
  /\ circ_buf_space None = 0
  /\ circ_buf_is_empty None = true
  /\ circ_buf_is_full None = true.
Proof.
  assert (E : circ_buf_space None = 0).
  { unfold circ_buf_space, size_sub, wrap. cbn [circ_buf_size circ_buf_used].
    change (0 - 0) with 0. apply Zmod_0_l. }
  unfold circ_buf_is_full. rewrite E. repeat split.
Qed.

(** C10.  [circ_buf_init] with no block and zero bytes returns [0] and
    leaves a structure with capacity [0] and a [NULL] block; on that
    structure [circ_buf_peek], [circ_buf_read] and [circ_buf_write] take a
    cursor modulo the capacity before anything else, and so divide by zero,
    whatever their other arguments. *)
Theorem zero_capacity_divides_by_zero (kmm_malloc : allocator) (c0 : circ_buf_s) :
  let zc := mk_circ_buf NULL 0 0 0 false in
  circ_buf_init kmm_malloc (Some c0) NULL 0 = (Val 0, Some zc)
  /\ (forall dst bytes, circ_buf_peek (Some zc) dst bytes = Raise DivByZero)
  /\ (forall d bytes, circ_buf_read (Some zc) (Some d) bytes = Raise DivByZero)
  /\ (forall s bytes, circ_buf_write (Some zc) (Some s) bytes = Raise DivByZero).
Proof.
  cbv zeta. repeat split; reflexivity.
Qed.

(** [circ_buf_resize] reads the resident bytes through [circ_buf_read], so
    on that structure it divides by zero as well, once it has its block. *)
Lemma zero_capacity_resize_divides_by_zero (kmm_malloc : allocator) (bytes : Z) tmp :
  0 <= bytes -> kmm_malloc bytes = Some tmp ->
  circ_buf_resize kmm_malloc (Some (mk_circ_buf NULL 0 0 0 false)) bytes
  = Raise DivByZero.
Proof.
  intros Hbytes Hm. unfold circ_buf_resize. cbn [external]. rewrite Hm.
  assert (E : circ_buf_used (Some (mk_circ_buf NULL 0 0 0 false)) = 0).
  { cbn [circ_buf_used head tail]. unfold size_sub, wrap.
    change (0 - 0) with 0. apply Zmod_0_l. }
  rewrite E. destruct (Z.ltb_spec bytes 0); [lia|]. reflexivity.
Qed.

End Queries.

(** ** The invariant *)

Section Invariant.
Context {sz : SizeT}.

(** C1, as amended.  In every state reached from a successful
    [circ_buf_init] by calls that return, the occupancy (the difference of
    the cursors as [circ_buf_used] computes it, modulo [SIZE_MOD]) is at most
    the capacity, and occupancy plus free space is the capacity.  The write
    cursor is at least the read cursor in the states reached without a write
    or overwrite carrying the write cursor past [SIZE_MAX]. *)
Theorem reachable_invariant (c : circ_buf_s) :
  reachable c ->
  circ_buf_used (Some c) <= circ_buf_size (Some c)
  /\ circ_buf_used (Some c) + circ_buf_space (Some c) = circ_buf_size (Some c)
  /\ (reachable_by head_not_wrapped c -> tail c <= head c).
Proof.
  intros Hreach. apply reachable_cursors_ok in Hreach.
  destruct Hreach as (Hsize & _ & _ & Hused).
  pose proof (used_range c) as Hu. unfold size_t in Hsize.
  split; [exact Hused|]. split.
  - unfold circ_buf_space. cbn [circ_buf_size] in *.
    rewrite size_sub_small; lia.
  - apply reachable_unwrapped.
Qed.

End Invariant.

(** ** Scenarios *)

Ltac closed_range := unfold size_t, SIZE_MOD; cbn; lia.

Lemma calloc_ok : allocator_ok calloc.
Proof.
  intros n blk Hn H. injection H as <-. unfold len. rewrite repeat_length. lia.
Qed.

Lemma no_memory_ok : allocator_ok no_memory.
Proof. intros n blk _ H. discriminate H. Qed.

Ltac closed_op := split; [closed_range|try exact I; try exact calloc_ok].

Ltac closed_valid :=
  unfold valid, ring, SIZE_MOD; cbn;
  repeat split; try lia; eexists; split; reflexivity.

Lemma holds_BC_valid : @valid size64 holds_BC.
Proof. closed_valid. Qed.


Lemma full_ABCD_valid : @valid size64 full_ABCD.
Proof. closed_valid. Qed.

Lemma empty4_valid : @valid size64 empty4.
Proof. closed_valid. Qed.

Lemma holds_ABCDEF_reachable (ok : circ_buf_s -> op -> circ_buf_s -> Prop) :
  ok empty8 (OpWrite (Some ABCDEF) 6) holds_ABCDEF ->
  @reachable_by size64 ok holds_ABCDEF.
Proof.
  intros Hok.
  apply (reach_op ok empty8 (OpWrite (Some ABCDEF) 6) (Val 6) holds_ABCDEF).
  - apply (reach_init ok calloc (Some fresh) NULL 8 empty8).
    + closed_range.
    + exact calloc_ok.
    + exact I.
    + reflexivity.
  - closed_op.
  - reflexivity.
  - exact Hok.
Qed.

(** C1: capacity 8 after ["ABCDEF"] was written. *)
Lemma reachable_invariant_witness :
  @circ_buf_used size64 (Some holds_ABCDEF) <= circ_buf_size (Some holds_ABCDEF)
  /\ @circ_buf_used size64 (Some holds_ABCDEF)
       + @circ_buf_space size64 (Some holds_ABCDEF)
     = circ_buf_size (Some holds_ABCDEF)
  /\ tail holds_ABCDEF <= head holds_ABCDEF.
Proof.
  destruct (@reachable_invariant size64 holds_ABCDEF
              (holds_ABCDEF_reachable _ I)) as (H1 & H2 & H3).
  split; [exact H1|]. split; [exact H2|].
  apply H3. apply holds_ABCDEF_reachable. cbn. lia.
Defined.

Lemma run_ops_reachable {sz : SizeT} (os : list op) :
  forall c c',
    reachable c -> Forall op_ok os ->
    run_ops c os = Some c' -> reachable c'.
Proof.
  induction os as [|o os IH]; intros c c' Hreach Hargs Hrun.
  - injection Hrun as <-. exact Hreach.
  - cbn [run_ops] in Hrun. inversion Hargs as [|o' os' Ho Hos]; subst.
    destruct (run_op c o) as [[r [c1|]]|] eqn:E; try discriminate.
    apply (IH c1 c'); [|exact Hos|exact Hrun].
    exact (reach_op _ c o r c1 Hreach Ho E I).
Qed.

Lemma laps16_run : @run_ops size16 start16 laps16 = Some wrapped16.
Proof. vm_compute. reflexivity. Qed.

(** C1 as stated fails on a 16-bit [size_t]: a borrowed block of 4096 bytes
    is filled, then fifteen times drained and refilled.  The write cursor,
    having counted 65536 bytes, is [0]; the read cursor is [61440]. *)
Lemma write_cursor_wraps_below_read_cursor :
  @reachable size16 wrapped16
  /\ head wrapped16 = 0 /\ tail wrapped16 = 61440
  /\ ~ (tail wrapped16 <= head wrapped16).
Proof.
  split; [|cbn; repeat split; lia].
  refine (@run_ops_reachable size16 laps16 start16 wrapped16 _ _ laps16_run).
  - refine (reach_init _ no_memory (Some fresh) (Some block16) 4096 start16 _ _ _ _).
    + closed_range.
    + exact no_memory_ok.
    + reflexivity.
    + reflexivity.
  - unfold laps16. cbn [concat repeat app]. repeat constructor; closed_range.
Qed.






(** The block of 40000 bytes on the 16-bit target. *)
Lemma block40000_len : len block40000 = 40000.
Proof. unfold block40000, len. rewrite repeat_length. lia. Qed.

Lemma empty40000_valid : @valid size16 empty40000.
Proof.
  unfold valid, ring. split; [split; [closed_range|split]|closed_range].
  - vm_compute. discriminate.
  - exists block40000. split; [reflexivity|exact block40000_len].
Qed.

Lemma full40000_valid : @valid size16 full40000.
Proof.
  unfold valid, ring. split; [split; [closed_range|split]|closed_range].
  - vm_compute. discriminate.
  - exists block40000. split; [reflexivity|exact block40000_len].
Qed.

Lemma empty40000_reachable : @reachable size16 empty40000.
Proof.
  refine (reach_init _ no_memory (Some fresh) (Some block40000) 40000
            empty40000 _ _ _ _).
  - closed_range.
  - exact no_memory_ok.
  - exact block40000_len.
  - reflexivity.
Qed.

(** C2: ["ABCD"] through an empty buffer of capacity 4. *)
Lemma write_read_roundtrip_witness :
  exists c1 c2,
    @circ_buf_write size64 (Some empty4) (Some ABCD) 4 = Pure (Val 4, Some c1)
    /\ @circ_buf_read size64 (Some c1) (Some (repeat x00 4)) 4
       = Pure (Val 4, Some c2, Some ABCD).
Proof.
  destruct (@write_read_roundtrip size64 empty4 ABCD (repeat x00 4) empty4_valid)
    as (c1 & c2 & Hw & Hr & _).
  - reflexivity.
  - cbn. lia.
  - cbn. lia.
  - exists c1, c2. split; [exact Hw|exact Hr].
Defined.

(** C2 as stated fails when the source is longer than the capacity: on an
    empty buffer of capacity 4 the write of ["ABCDEF"] returns [4], not [6],
    and the read that follows returns [4] and delivers ["ABCD"].  It fails
    too when the source fits but is longer than [SSIZE_MAX]: on a 16-bit
    [size_t] the write of 40000 bytes to an empty buffer of that capacity
    returns [-25536]. *)
Lemma roundtrip_longer_than_capacity :
  (@circ_buf_is_empty size64 (Some empty4) = true
   /\ len ABCDEF = 6
   /\ @circ_buf_write size64 (Some empty4) (Some ABCDEF) 6
      = Pure (Val 4, Some (mk_circ_buf (Some ABCD) 4 4 0 false))
   /\ @circ_buf_read size64 (Some (mk_circ_buf (Some ABCD) 4 4 0 false))
        (Some (repeat x00 6)) 6
      = Pure (Val 4, Some (mk_circ_buf (Some ABCD) 4 4 4 false),
              Some (ABCD ++ [x00; x00])))
  /\ (@reachable size16 empty40000
      /\ @circ_buf_is_empty size16 (Some empty40000) = true
      /\ len block40000 = 40000
      /\ exists c1,
          @circ_buf_write size16 (Some empty40000) (Some block40000) 40000
          = Pure (Val (-25536), Some c1)).
Proof.
  split; [repeat split|].
  split; [exact empty40000_reachable|]. split; [reflexivity|].
  split; [exact block40000_len|].
  destruct (@write_ring size16 empty40000 block40000 40000
              (valid_ring _ empty40000_valid) block40000_len)
    as (blk & blk' & _ & Hw & _).
  eexists. rewrite Hw. reflexivity.
Qed.







(** C6: a borrowed buffer, and an owned one when there is no memory. *)
Lemma resize_failure_witness :
  @circ_buf_resize size64 calloc (Some borrowed_BC) 8
  = Pure (NegErrno EINVAL, Some borrowed_BC)
  /\ @circ_buf_resize size64 no_memory (Some holds_BC) 8
     = Pure (NegErrno ENOMEM, Some holds_BC).
Proof.
  split.
  - apply (@resize_failure size64 calloc borrowed_BC 8). reflexivity.
  - apply (@resize_failure size64 no_memory holds_BC 8); reflexivity.
Defined.

(** C7 as stated fails: on an absent handle [circ_buf_is_empty] and
    [circ_buf_is_full] return [true], not [false]. *)
Lemma null_handle_is_empty_and_full :
  @circ_buf_is_empty size64 None <> false
  /\ @circ_buf_is_full size64 None <> false.
Proof. split; discriminate. Qed.

(** C8 as stated fails above [SSIZE_MAX]: on a 16-bit [size_t], the peek of
    the 40000 resident bytes of a full buffer copies them and returns
    [-25536].  And on the structure that [circ_buf_init] makes of no block
    and zero bytes, peek divides by zero. *)
Lemma peek_count_comes_back_negative :
  (@valid size16 full40000
   /\ @circ_buf_used size16 (Some full40000) = 40000
   /\ exists dst',
       @circ_buf_peek size16 (Some full40000) (Some block40000) 40000
       = Pure (Val (-25536), Some full40000, Some dst'))
  /\ (circ_buf_init calloc (Some fresh) NULL 0 = (Val 0, Some fresh)
      /\ @circ_buf_peek size16 (Some fresh) (Some ABCD) 4 = Raise DivByZero).
Proof.
  split; [|split; reflexivity].
  split; [exact full40000_valid|]. split; [reflexivity|].
  eexists.
  rewrite (@peek_ring size16 full40000 block40000 40000
             (valid_ring _ full40000_valid)).
  - reflexivity.
  - lia.
  - rewrite block40000_len. apply Z.le_min_l.
Qed.

(** C8: two resident bytes, four asked for. *)
Lemma peek_spec_witness :
  @circ_buf_peek size64 (Some holds_BC) (Some (repeat x00 4)) 4
  = Pure (Val 2, Some holds_BC, Some ["B"; "C"; x00; x00]%byte).
Proof.
  destruct (@peek_spec size64 holds_BC (repeat x00 4) 4) as (H & _).
  - apply valid_ring. exact holds_BC_valid.
  - lia.
  - cbn. lia.
  - exact H.
Defined.

End CircBufSpec.

(** * Properties of the buffer-chain queue *)

Module IobSpec.
Import Iob.

Section QueueSize.
Context {sz : SizeT}.

Lemma chain_size_sum (total : Z) (chain : list iob_s) :
  wrap total = total ->
  chain_size total chain = wrap (total + list_sum_Z (map io_len chain)).
Proof.
  revert total. induction chain as [|iob chain IH]; intros total Hfix.
  - cbn. rewrite Z.add_0_r. symmetry. exact Hfix.
  - cbn [chain_size fold_left map list_sum_Z fold_right].
    change (fold_left (fun t i => size_add t (io_len i)) chain
              (size_add total (io_len iob)))
      with (chain_size (size_add total (io_len iob)) chain).
    rewrite IH.
    + unfold size_add. rewrite CircBufSpec.wrap_wrap_add. f_equal.
      unfold list_sum_Z. lia.
    + unfold size_add, wrap. apply Z.mod_mod.
      pose proof CircBufSpec.SIZE_MOD_large. lia.
Qed.

Lemma queue_size_sum (total : Z) (entries : list iob_qentry_s) :
  wrap total = total ->
  fold_left (fun total iobq => chain_size total (qe_head iobq)) entries total
  = wrap (total
          + list_sum_Z (map (fun iobq => list_sum_Z (map io_len (qe_head iobq)))
                          entries)).
Proof.
  revert total. induction entries as [|iobq entries IH]; intros total Hfix.
  - cbn. rewrite Z.add_0_r. symmetry. exact Hfix.
  - cbn [fold_left map list_sum_Z fold_right].
    rewrite IH.
    + rewrite chain_size_sum by exact Hfix.
      rewrite CircBufSpec.wrap_wrap_add. f_equal. unfold list_sum_Z. lia.
    + rewrite chain_size_sum by exact Hfix. unfold wrap. apply Z.mod_mod.
      pose proof CircBufSpec.SIZE_MOD_large. lia.
Qed.

(** C9.  [iob_get_queue_size] returns the sum of [io_len] over every
    segment of every chain of every entry, accumulated in a [size_t]: it is
    that sum whenever the sum fits [size_t], and always that sum modulo
    [SIZE_MOD].  It is a function of the queue that returns a number and
    nothing else, and on a queue whose head is [NULL] it returns [0]. *)
Theorem iob_get_queue_size_spec (queue : iob_queue_s) :
  (size_t (queue_bytes queue) -> iob_get_queue_size queue = queue_bytes queue)
  /\ iob_get_queue_size queue = wrap (queue_bytes queue)
  /\ (qh_head queue = [] -> iob_get_queue_size queue = 0).
Proof.
  assert (E : iob_get_queue_size queue = wrap (queue_bytes queue)).
  { unfold iob_get_queue_size, queue_bytes.
    rewrite queue_size_sum by (unfold wrap; apply Zmod_0_l). reflexivity. }
  split; [|split].
  - intros Hfit. rewrite E. apply CircBufSpec.wrap_small. exact Hfit.
  - exact E.
  - intros Hnull. unfold iob_get_queue_size. rewrite Hnull. reflexivity.
Qed.

End QueueSize.

(** C9: 196 + 60 + 44 bytes in two entries. *)
Lemma iob_get_queue_size_witness :
  @iob_get_queue_size size16 two_entries = 300
  /\ @iob_get_queue_size size16 (mk_queue []) = 0.
Proof.
  destruct (@iob_get_queue_size_spec size16 two_entries) as (Hsum & _ & _).
  destruct (@iob_get_queue_size_spec size16 (mk_queue [])) as (_ & _ & Hnull).
  split.
  - apply Hsum. unfold size_t, SIZE_MOD. cbn. lia.
  - apply Hnull. reflexivity.
Defined.

End IobSpec.

(** * Further properties of the ring buffer *)

Module CircBufMore.
Import CircBuf CircBufSpec.

Section Helpers.
Context {sz : SizeT}.
Implicit Types c : circ_buf_s.

Lemma valid_cursors c : valid c -> size_t (head c) /\ size_t (tail c).
Proof. intros (_ & Ht & Hth & Hh). unfold size_t. lia. Qed.

Lemma skipped_valid c (k : Z) :
  valid c -> 0 <= k <= circ_buf_used (Some c) ->
  valid (set_tail c (size_add (tail c) k)).
Proof.
  intros Hv Hk. destruct (skipped_ring c k Hv Hk) as (Hr1 & _).
  pose proof (used_valid c Hv) as Hu.
  destruct Hv as (_ & Ht & Hth & Hh). split; [exact Hr1|].
  cbn [head tail set_tail]. rewrite size_add_small by lia. lia.
Qed.

(** The structure after a store that did not carry the write cursor out of
    [size_t] has its cursors in order. *)
Lemma stored_valid c blk' (b ov : Z) :
  valid c -> len blk' = size c -> 0 <= b ->
  0 <= ov <= circ_buf_used (Some c) ->
  circ_buf_used (Some c) + b - ov <= size c ->
  head c + b < SIZE_MOD ->
  valid (stored c blk' b ov).
Proof.
  intros Hv Hlen Hb Hov Hfit Hnowrap. pose proof (used_valid c Hv) as Hu.
  pose proof (valid_ring c Hv) as Hr.
  destruct Hv as (_ & Ht & Hth & Hh).
  assert (Hused : circ_buf_used (Some (stored c blk' b ov))
                  = circ_buf_used (Some c) + b - ov).
  { cbn [circ_buf_used stored head tail]. rewrite used_moved.
    cbn [circ_buf_used] in *. destruct Hr as (Hsize & _).
    rewrite wrap_small; lia. }
  split.
  - apply stored_ring; [exact Hr|exact Hlen|lia].
  - cbn [stored head tail]. rewrite !size_add_small by lia. lia.
Qed.

(** [circ_buf_overwrite] on a ring buffer whose cursors are in order. *)
Lemma overwrite_valid c (s : list byte) (bytes : Z) :
  valid c -> len s = bytes -> bytes < SIZE_MOD ->
  let b := Z.min bytes (size c) in
  let ov := Z.max 0 (b - circ_buf_space (Some c)) in
  exists blk',
    circ_buf_overwrite (Some c) (Some s) bytes
    = Pure (Val (ssize_of ov), Some (stored c blk' b ov))
    /\ len blk' = size c
    /\ circ_buf_used (Some (stored c blk' b ov)) = circ_buf_used (Some c) + b - ov
    /\ resident (stored c blk' b ov)
       = skipn (Z.to_nat ov) (resident c) ++ skipn (Z.to_nat (bytes - b)) s.
Proof.
  intros Hv Hs Hbytes b ov. pose proof (valid_ring c Hv) as Hr.
  pose proof (space_ring c Hr) as Hspace. pose proof (used_range c) as Hu.
  destruct (overwrite_ring c s bytes Hr Hs Hbytes)
    as (blk & blk' & Hbase & Hw & Hlen & Hrot).
  fold b in Hw, Hrot. fold ov in Hw.
  assert (Hb : 0 <= b <= size c).
  { destruct Hr as (Hsize & _). unfold len in Hs. lia. }
  assert (HS : len (skipn (Z.to_nat (bytes - b)) s) = b).
  { unfold len in *. rewrite length_skipn. lia. }
  destruct (resident_stored c blk blk' _ b ov Hv Hbase Hlen Hb HS Hrot)
    as (Hused & Hres).
  { unfold ov. rewrite Hspace. lia. }
  exists blk'. auto.
Qed.

(** What the code returns and leaves depends on the resident bytes and the
    capacity alone. *)
Lemma used_resident c : ring c -> circ_buf_used (Some c) = len (resident c).
Proof. intros Hr. symmetry. apply length_resident. exact Hr. Qed.

End Helpers.

Section ReadSide.
Context {sz : SizeT}.
Implicit Types c : circ_buf_s.

(** X1.  [circ_buf_read] on a ring buffer whose cursors are in order
    delivers the [n = min (bytes, occupancy)] oldest resident bytes to the
    start of the destination and returns [n] as [ssize_t], which is [n]
    itself when [n] is at most [SSIZE_MAX]; the bytes left resident are the
    others, in their order; the block, the capacity and the write cursor are
    untouched and the cursors stay in order.  Unlike [circ_buf_peek] it
    returns [-EINVAL] for a [NULL] destination, with the structure as it
    was. *)
Theorem read_spec c (d : list byte) (bytes : Z) :
  valid c -> 0 <= bytes ->
  Z.min bytes (circ_buf_used (Some c)) <= len d ->
  let n := Z.min bytes (circ_buf_used (Some c)) in
  exists c',
    circ_buf_read (Some c) (Some d) bytes
    = Pure (Val (ssize_of n), Some c',
            Some (firstn (Z.to_nat n) (resident c) ++ skipn (Z.to_nat n) d))
    /\ (n <= SSIZE_MAX -> ssize_of n = n)
    /\ resident c' = skipn (Z.to_nat n) (resident c)
    /\ circ_buf_used (Some c') = circ_buf_used (Some c) - n
    /\ base c' = base c /\ size c' = size c /\ head c' = head c
    /\ valid c'
    /\ circ_buf_read (Some c) NULL bytes = Pure (NegErrno EINVAL, Some c, NULL).
Proof.
  intros Hv Hbytes Hd n. pose proof (used_range c) as Hu.
  assert (Hn : 0 <= n <= circ_buf_used (Some c)) by lia.
  destruct (skipped_ring c n Hv Hn) as (_ & Hused).
  exists (set_tail c (size_add (tail c) n)).
  split; [apply read_ring; [apply valid_ring|..]; assumption|].
  split; [apply ssize_of_small|].
  split; [apply resident_skipped; assumption|].
  split; [exact Hused|].
  split; [reflexivity|]. split; [reflexivity|]. split; [reflexivity|].
  split; [apply skipped_valid; assumption|reflexivity].
Qed.

(** X2.  [circ_buf_skip] on a ring buffer whose cursors are in order
    discards the [n = min (bytes, occupancy)] oldest resident bytes and
    returns [n] as [ssize_t], which is [n] itself when [n] is at most
    [SSIZE_MAX]: the resident bytes are the others, the block and the write
    cursor are untouched, the cursors stay in order, and the buffer is empty
    afterwards exactly when [bytes] was at least the occupancy. *)
Theorem skip_spec c (bytes : Z) :
  valid c -> 0 <= bytes ->
  let n := Z.min bytes (circ_buf_used (Some c)) in
  exists c',
    circ_buf_skip (Some c) bytes = Pure (Val (ssize_of n), Some c')
    /\ (n <= SSIZE_MAX -> ssize_of n = n)
    /\ resident c' = skipn (Z.to_nat n) (resident c)
    /\ base c' = base c /\ size c' = size c /\ head c' = head c
    /\ valid c'
    /\ (circ_buf_is_empty (Some c') = true <-> circ_buf_used (Some c) <= bytes).
Proof.
  intros Hv Hbytes n. pose proof (used_range c) as Hu.
  assert (Hn : 0 <= n <= circ_buf_used (Some c)) by lia.
  destruct (skipped_ring c n Hv Hn) as (_ & Hused).
  exists (set_tail c (size_add (tail c) n)).
  split; [unfold circ_buf_skip; rewrite gtb_min; reflexivity|].
  split; [apply ssize_of_small|].
  split; [apply resident_skipped; assumption|].
  split; [reflexivity|]. split; [reflexivity|]. split; [reflexivity|].
  split; [apply skipped_valid; assumption|].
  unfold circ_buf_is_empty. rewrite Hused, Z.eqb_eq. lia.
Qed.

(** X3.  [circ_buf_reset] on a ring buffer, whatever its cursors (wrapped
    or not), leaves it empty with every byte of the capacity free and the
    cursors in order at the origin; the block, the capacity and the
    ownership flag are untouched.  On a [NULL] handle it does nothing. *)
Theorem reset_spec c :
  ring c ->
  exists c',
    circ_buf_reset (Some c) = Some c'
    /\ valid c'
    /\ resident c' = []
    /\ circ_buf_is_empty (Some c') = true
    /\ circ_buf_space (Some c') = size c
    /\ head c' = 0 /\ tail c' = 0
    /\ base c' = base c /\ size c' = size c /\ external c' = external c
    /\ circ_buf_reset None = None.
Proof.
  intros (Hsize & Hused & blk & Hbase & Hlen).
  pose proof SIZE_MOD_large as HM.
  exists (set_tail (set_head c 0) 0).
  assert (E : circ_buf_used (Some (set_tail (set_head c 0) 0)) = 0).
  { cbn [circ_buf_used head tail set_tail set_head]. apply size_sub_small; lia. }
  assert (Hr : ring (set_tail (set_head c 0) 0)).
  { unfold ring. rewrite E. cbn [size base set_tail set_head].
    split; [exact Hsize|]. split; [lia|]. exists blk. auto. }
  split; [reflexivity|]. split.
  { split; [exact Hr|]. cbn [head tail set_tail set_head]. lia. }
  split.
  { unfold resident. rewrite E. cbn [base set_tail set_head]. rewrite Hbase.
    reflexivity. }
  split; [unfold circ_buf_is_empty; rewrite E; reflexivity|].
  split.
  { rewrite (space_ring _ Hr). rewrite E. cbn [size set_tail set_head]. lia. }
  repeat split.
Qed.

(** X4.  On a ring buffer [circ_buf_is_empty] says that no byte is
    resident and [circ_buf_is_full] that as many are resident as the
    capacity; the two are never true together, and free space is what the
    resident bytes leave of the capacity. *)
Theorem empty_full_spec c :
  ring c ->
  (circ_buf_is_empty (Some c) = true <-> resident c = [])
  /\ (circ_buf_is_full (Some c) = true <-> len (resident c) = size c)
  /\ (circ_buf_is_empty (Some c) = true -> circ_buf_is_full (Some c) = false)
  /\ circ_buf_space (Some c) = size c - len (resident c).
Proof.
  intros Hr. pose proof (length_resident c Hr) as HL.
  pose proof (space_ring c Hr) as Hspace.
  destruct Hr as (Hsize & Hused & _).
  unfold circ_buf_is_empty, circ_buf_is_full. rewrite Hspace, <- HL.
  split; [|split; [|split]].
  - rewrite Z.eqb_eq. split.
    + intros E. unfold len in E.
      destruct (resident c); [reflexivity|simpl in E; lia].
    + intros E. rewrite E. reflexivity.
  - rewrite Z.eqb_eq. lia.
  - rewrite Z.eqb_eq. intros E. apply Z.eqb_neq. lia.
  - reflexivity.
Qed.

End ReadSide.

Section WriteSide.
Context {sz : SizeT}.
Implicit Types c : circ_buf_s.

Lemma memcpy_nothing (d s : list byte) (doff soff : Z) :
  0 <= doff <= len d -> soff <= len s ->
  memcpy (Some d) doff (Some s) soff 0 = Pure (Some d).
Proof.
  intros Hd Hs. rewrite memcpy_in_bounds by lia.
  rewrite Z.add_0_r. change (Z.to_nat 0) with 0%nat. cbn [firstn app].
  rewrite firstn_skipn. reflexivity.
Qed.

Lemma set_head_same c : set_head c (head c) = c.
Proof. destruct c. reflexivity. Qed.

Lemma set_tail_same c : set_tail c (tail c) = c.
Proof. destruct c. reflexivity. Qed.

Lemma set_base_same c : set_base c (base c) = c.
Proof. destruct c. reflexivity. Qed.

(** X5.  On a full ring buffer whose write cursor is a [size_t] value,
    whether or not that cursor has wrapped below the read cursor,
    [circ_buf_write] with a source that is not [NULL] returns [0] and leaves
    the structure exactly as it was, block included, whatever the bytes of
    the source and the count: nothing is read from the source.  With a
    [NULL] source it returns [-EINVAL], and the structure is as it was
    too. *)
Theorem write_when_full c (s : list byte) (bytes : Z) :
  ring c -> size_t (head c) -> circ_buf_is_full (Some c) = true -> 0 <= bytes ->
  circ_buf_write (Some c) (Some s) bytes = Pure (Val 0, Some c)
  /\ circ_buf_write (Some c) NULL bytes = Pure (NegErrno EINVAL, Some c).
Proof.
  intros (Hsize & Hused & blk & Hbase & Hlen) Hh Hfull Hbytes.
  split; [|reflexivity].
  apply Z.eqb_eq in Hfull.
  pose proof (Z.mod_pos_bound (head c) (size c) ltac:(lia)) as Hoff.
  unfold circ_buf_write. rewrite size_rem_nonzero by lia. cbn [bind].
  rewrite gtb_min, ltb_min, Hfull.
  rewrite (size_sub_small (size c)) by lia.
  replace (Z.min bytes 0) with 0 by lia.
  replace (Z.min 0 (size c - head c mod size c)) with 0 by lia.
  rewrite (size_sub_small 0 0) by (pose proof SIZE_MOD_large; lia).
  rewrite Hbase. rewrite memcpy_nothing by (unfold len in *; lia). cbn [bind].
  change (0 - 0) with 0. rewrite memcpy_nothing by (unfold len in *; lia).
  cbn [bind].
  rewrite size_add_zero by exact Hh. rewrite <- Hbase.
  rewrite set_base_same, set_head_same, ssize_of_zero. reflexivity.
Qed.

(** X6.  On an empty ring buffer [circ_buf_read] and [circ_buf_peek] return
    [0] and leave both the structure and the destination exactly as they
    were, whatever the count asked for. *)
Theorem read_when_empty c (d : list byte) (bytes : Z) :
  valid c -> circ_buf_is_empty (Some c) = true -> 0 <= bytes ->
  circ_buf_read (Some c) (Some d) bytes = Pure (Val 0, Some c, Some d)
  /\ circ_buf_peek (Some c) (Some d) bytes = Pure (Val 0, Some c, Some d).
Proof.
  intros Hv Hempty Hbytes. destruct (valid_cursors c Hv) as (_ & Ht).
  pose proof (valid_ring c Hv) as Hr. apply Z.eqb_eq in Hempty.
  assert (Hn : Z.min bytes (circ_buf_used (Some c)) = 0) by lia.
  split.
  - rewrite read_ring; [|exact Hr|exact Hbytes|unfold len; lia].
    rewrite Hn. rewrite size_add_zero by exact Ht.
    rewrite set_tail_same, ssize_of_zero. reflexivity.
  - rewrite peek_ring; [|exact Hr|exact Hbytes|unfold len; lia].
    rewrite Hn, ssize_of_zero. reflexivity.
Qed.

(** [circ_buf_overwrite] with a count within the free space runs the copies
    of [circ_buf_write] and moves the read cursor by nothing. *)
Lemma overwrite_as_write c (s : list byte) (bytes : Z) :
  valid c -> 0 <= bytes <= circ_buf_space (Some c) ->
  circ_buf_overwrite (Some c) (Some s) bytes
  = (p <- circ_buf_write (Some c) (Some s) bytes ;; Pure (Val 0, snd p)).
Proof.
  intros Hv Hbytes. destruct (valid_cursors c Hv) as (_ & Ht).
  pose proof (valid_ring c Hv) as Hr. pose proof (space_ring c Hr) as Hspace.
  pose proof (used_range c) as Hu. destruct Hr as (Hsize & Hused & _).
  unfold circ_buf_overwrite, circ_buf_write.
  rewrite !Z.gtb_ltb.
  destruct (Z.ltb_spec (size c) bytes); [lia|].
  destruct (Z.ltb_spec (circ_buf_space (Some c)) bytes); [lia|].
  destruct (size_rem (head c) (size c)) as [off|]; [|reflexivity].
  cbn [bind].
  destruct (memcpy (base c) off (Some s) 0
              (if bytes <? size_sub (size c) off
               then bytes else size_sub (size c) off)) as [b1|]; [|reflexivity].
  cbn [bind].
  destruct (memcpy b1 0 (Some s) _ _) as [b2|]; [|reflexivity].
  cbn [bind snd tail set_head set_base].
  rewrite Z.gtb_ltb.
  destruct (Z.ltb_spec (circ_buf_space (Some c)) bytes); [lia|].
  rewrite size_add_zero by exact Ht. rewrite ssize_of_zero. reflexivity.
Qed.

(** X7.  On a ring buffer whose cursors are in order, when the count is
    within the free space, [circ_buf_overwrite] leaves exactly the structure
    [circ_buf_write] leaves, evicts nothing and returns [0] where
    [circ_buf_write] returns the count as [ssize_t], the count itself when it
    is at most [SSIZE_MAX]. *)
Theorem overwrite_with_room c (s : list byte) (bytes : Z) :
  valid c -> len s = bytes -> bytes <= circ_buf_space (Some c) ->
  exists c',
    circ_buf_write (Some c) (Some s) bytes = Pure (Val (ssize_of bytes), Some c')
    /\ (bytes <= SSIZE_MAX -> ssize_of bytes = bytes)
    /\ circ_buf_overwrite (Some c) (Some s) bytes = Pure (Val 0, Some c')
    /\ resident c' = resident c ++ s.
Proof.
  intros Hv Hs Hroom.
  destruct (write_valid c s bytes Hv Hs)
    as (blk & blk' & _ & Hw & _ & _ & _ & Hres).
  replace (Z.min bytes (circ_buf_space (Some c))) with bytes in * by lia.
  rewrite firstn_all2 in Hres by (unfold len in Hs; lia).
  eexists. split; [exact Hw|]. split; [apply ssize_of_small|].
  split; [|exact Hres].
  rewrite overwrite_as_write; [|exact Hv|unfold len in Hs; lia].
  rewrite Hw. reflexivity.
Qed.

(** X8.  On a ring buffer whose cursors are in order, [circ_buf_overwrite]
    with a source of at least the capacity replaces the whole content: it
    returns the old occupancy as [ssize_t], the occupancy itself when that
    is at most [SSIZE_MAX]; the buffer is full afterwards, and the resident
    bytes are the last [capacity] bytes of the source. *)
Theorem overwrite_whole c (s : list byte) (bytes : Z) :
  valid c -> len s = bytes -> size c <= bytes -> bytes < SIZE_MOD ->
  exists c',
    circ_buf_overwrite (Some c) (Some s) bytes
    = Pure (Val (ssize_of (circ_buf_used (Some c))), Some c')
    /\ (circ_buf_used (Some c) <= SSIZE_MAX
        -> ssize_of (circ_buf_used (Some c)) = circ_buf_used (Some c))
    /\ resident c' = skipn (Z.to_nat (bytes - size c)) s
    /\ circ_buf_is_full (Some c') = true
    /\ size c' = size c.
Proof.
  intros Hv Hs Hbig Hbytes. pose proof (valid_ring c Hv) as Hr.
  pose proof (space_ring c Hr) as Hspace. pose proof (used_range c) as Hu.
  pose proof (length_resident c Hr) as HL.
  destruct (overwrite_valid c s bytes Hv Hs Hbytes)
    as (blk' & Hw & Hlen & Hused & Hres).
  destruct Hr as (Hsize & Hfit & _).
  replace (Z.min bytes (size c)) with (size c) in * by lia.
  replace (Z.max 0 (size c - circ_buf_space (Some c)))
    with (circ_buf_used (Some c)) in * by lia.
  eexists. split; [exact Hw|]. split; [apply ssize_of_small|].
  split; [|split; [|reflexivity]].
  - rewrite Hres. rewrite skipn_all2 by (unfold len in HL; lia). reflexivity.
  - unfold circ_buf_is_full, circ_buf_space. rewrite Hused.
    cbn [circ_buf_size stored size]. apply Z.eqb_eq.
    rewrite size_sub_small; lia.
Qed.

End WriteSide.

Section Stores.
Context {A : Type}.
Implicit Types l R x y : list A.

Lemma rotl_inj (k : nat) l l' :
  length l = length l' -> rotl k l = rotl k l' -> l = l'.
Proof.
  intros Hlen Hrot. unfold rotl in Hrot.
  apply app_inj_length in Hrot as [Hs Hf].
  - rewrite <- (firstn_skipn k l), <- (firstn_skipn k l'), Hs, Hf. reflexivity.
  - rewrite !length_skipn. lia.
Qed.

(** A store of [y] right after a store of [x] shows what one store of
    [x ++ y] shows. *)
Lemma two_stores R R2 x y :
  length R2 = length R -> (length x + length y <= length R)%nat ->
  rotl (length x) R2
  = y ++ skipn (length y) (rotl (length x) (x ++ skipn (length x) R)) ->
  R2 = (x ++ y) ++ skipn (length x + length y) R.
Proof.
  intros HR Hfit Hrot.
  destruct (split_at R (length x) ltac:(lia)) as (r1 & r & -> & Hr1).
  destruct (split_at r (length y) ltac:(seg_len)) as (r2 & r3 & -> & Hr2).
  destruct (split_at R2 (length x) ltac:(seg_len)) as (p & q & -> & Hp).
  revert Hrot. seg. intros Hrot.
  assert (Hsplit : q ++ p = (y ++ r3) ++ x) by (rewrite <- app_assoc; exact Hrot).
  apply app_inj_length in Hsplit as [-> ->]; [|seg_len].
  seg. reflexivity.
Qed.

End Stores.

Section Composition.
Context {sz : SizeT}.
Implicit Types c : circ_buf_s.

(** X9.  Two writes that fit are one write of the concatenation: on a ring
    buffer whose cursors are in order, when [x ++ y] fits the free space and
    the write cursor does not wrap [size_t], writing [x] and then [y]
    returns [len x] and [len y] as [ssize_t] and leaves exactly the
    structure, block and cursors, that one write of [x ++ y], which returns
    [len x + len y] as [ssize_t], leaves, with [x ++ y] after the old
    resident bytes.  The three results are the counts themselves when
    [len x + len y] is at most [SSIZE_MAX]. *)
Theorem writes_concatenate c (x y : list byte) :
  valid c -> len x + len y <= circ_buf_space (Some c) ->
  head c + len x + len y < SIZE_MOD ->
  exists c1 c2,
    circ_buf_write (Some c) (Some x) (len x)
    = Pure (Val (ssize_of (len x)), Some c1)
    /\ circ_buf_write (Some c1) (Some y) (len y)
       = Pure (Val (ssize_of (len y)), Some c2)
    /\ circ_buf_write (Some c) (Some (x ++ y)) (len x + len y)
       = Pure (Val (ssize_of (len x + len y)), Some c2)
    /\ (len x + len y <= SSIZE_MAX ->
        ssize_of (len x) = len x /\ ssize_of (len y) = len y
        /\ ssize_of (len x + len y) = len x + len y)
    /\ resident c2 = resident c ++ x ++ y.
Proof.
  intros Hv Hfit Hnowrap. pose proof (valid_ring c Hv) as Hr.
  pose proof (space_ring c Hr) as Hspace. pose proof (used_range c) as Hu.
  destruct (valid_cursors c Hv) as (Hh & Ht).
  assert (Hsize : 0 < size c < SIZE_MOD) by (destruct Hr; assumption).
  assert (Hx0 : 0 <= len x) by (unfold len; lia).
  assert (Hy0 : 0 <= len y) by (unfold len; lia).
  (* the first write *)
  destruct (write_valid c x (len x) Hv eq_refl)
    as (blk & blk1 & Hbase & Hw1 & Hlen1 & Hrot1 & Hused1 & Hres1).
  assert (Hlen0 : len blk = size c).
  { destruct Hr as (_ & _ & blk0 & Hbase0 & Hlen0).
    rewrite Hbase in Hbase0. injection Hbase0 as <-. exact Hlen0. }
  replace (Z.min (len x) (circ_buf_space (Some c))) with (len x) in * by lia.
  replace (Z.to_nat (len x)) with (length x) in * by (unfold len; lia).
  rewrite firstn_all in Hrot1, Hres1.
  set (c1 := stored c blk1 (len x) 0) in *.
  assert (Hv1 : valid c1).
  { apply stored_valid; try assumption; unfold size_t in *; lia. }
  assert (Hspace1 : circ_buf_space (Some c1) = circ_buf_space (Some c) - len x).
  { rewrite (space_ring c1 (valid_ring c1 Hv1)), Hused1, Hspace.
    subst c1. cbn [size stored]. lia. }
  (* the second write *)
  destruct (write_valid c1 y (len y) Hv1 eq_refl)
    as (blk1' & blk2 & Hbase1 & Hw2 & Hlen2 & Hrot2 & _ & Hres2).
  injection Hbase1 as <-.
  replace (Z.min (len y) (circ_buf_space (Some c1))) with (len y) in * by lia.
  replace (Z.to_nat (len y)) with (length y) in * by (unfold len; lia).
  rewrite firstn_all in Hrot2, Hres2.
  (* the single write *)
  assert (Hxy : len (x ++ y) = len x + len y).
  { unfold len. rewrite length_app. lia. }
  destruct (write_valid c (x ++ y) (len x + len y) Hv Hxy)
    as (blk' & blk12 & Hbase' & Hw12 & Hlen12 & Hrot12 & _ & _).
  rewrite Hbase in Hbase'. injection Hbase' as <-.
  replace (Z.min (len x + len y) (circ_buf_space (Some c)))
    with (len x + len y) in * by lia.
  replace (Z.to_nat (len x + len y)) with (length x + length y)%nat in *
    by (unfold len; lia).
  rewrite firstn_all2 in Hrot12 by (rewrite length_app; lia).
  (* the blocks are the same *)
  assert (Hblk : blk2 = blk12).
  { unfold c1 in Hrot2, Hlen2. cbn [head size stored] in Hrot2, Hlen2.
    unfold size_t in Hh. rewrite (size_add_small (head c)) in Hrot2 by lia.
    rewrite <- Hlen2 in Hrot2 at 1. rewrite <- Hlen1 in Hrot2 at 1.
    rewrite !rotl_moved in Hrot2 by lia.
    rewrite Hlen1, Hlen2 in Hrot2. rewrite Hrot1 in Hrot2.
    replace (Z.to_nat (len x)) with (length x) in Hrot2 by (unfold len; lia).
    set (h := Z.to_nat (head c mod size c)) in *.
    apply two_stores in Hrot2.
    - apply (rotl_inj h); [unfold len in *; lia|].
      rewrite Hrot2, Hrot12. reflexivity.
    - rewrite !length_rotl. unfold len in *. lia.
    - rewrite length_rotl. unfold len in *. lia. }
  assert (Hc2 : stored c1 blk2 (len y) 0 = stored c blk12 (len x + len y) 0).
  { subst c1. unfold stored. cbn [size head tail external]. rewrite Hblk.
    f_equal.
    - unfold size_add. rewrite wrap_wrap_add. f_equal. lia.
    - rewrite !size_add_zero; [reflexivity|exact Ht|].
      rewrite size_add_zero by exact Ht. exact Ht. }
  exists c1, (stored c1 blk2 (len y) 0).
  split; [exact Hw1|]. split; [exact Hw2|]. split; [rewrite Hc2; exact Hw12|].
  split; [intros Hmax; repeat split; apply ssize_of_small; lia|].
  rewrite Hres2, Hres1, <- app_assoc. reflexivity.
Qed.

(** X10.  What the calls return and leave resident depends on the resident
    bytes and the capacity, not on where the cursors stand in the block: two
    ring buffers with their cursors in order, the same capacity and the same
    resident bytes give the same results to [circ_buf_write],
    [circ_buf_overwrite] and [circ_buf_read], deliver the same bytes, and
    have the same resident bytes afterwards. *)
Theorem resident_determines_results c1 c2 (s d : list byte) (bytes m : Z) :
  valid c1 -> valid c2 -> size c1 = size c2 -> resident c1 = resident c2 ->
  len s = bytes -> bytes < SIZE_MOD ->
  0 <= m -> m <= len d ->
  (exists r c1' c2',
      circ_buf_write (Some c1) (Some s) bytes = Pure (r, Some c1')
      /\ circ_buf_write (Some c2) (Some s) bytes = Pure (r, Some c2')
      /\ resident c1' = resident c2')
  /\ (exists r c1' c2',
        circ_buf_overwrite (Some c1) (Some s) bytes = Pure (r, Some c1')
        /\ circ_buf_overwrite (Some c2) (Some s) bytes = Pure (r, Some c2')
        /\ resident c1' = resident c2')
  /\ (exists r d' c1' c2',
        circ_buf_read (Some c1) (Some d) m = Pure (r, Some c1', d')
        /\ circ_buf_read (Some c2) (Some d) m = Pure (r, Some c2', d')
        /\ resident c1' = resident c2').
Proof.
  intros Hv1 Hv2 Hsize Hres Hs Hbytes Hm Hd.
  pose proof (valid_ring c1 Hv1) as Hr1. pose proof (valid_ring c2 Hv2) as Hr2.
  assert (Hused : circ_buf_used (Some c1) = circ_buf_used (Some c2)).
  { rewrite (used_resident c1 Hr1), (used_resident c2 Hr2), Hres. reflexivity. }
  assert (Hspace : circ_buf_space (Some c1) = circ_buf_space (Some c2)).
  { rewrite (space_ring c1 Hr1), (space_ring c2 Hr2), Hused, Hsize. reflexivity. }
  pose proof (used_range c1) as Hu.
  split; [|split].
  - destruct (write_valid c1 s bytes Hv1 Hs) as (? & ? & _ & Hw1 & _ & _ & _ & Ha).
    destruct (write_valid c2 s bytes Hv2 Hs) as (? & ? & _ & Hw2 & _ & _ & _ & Hb).
    rewrite <- Hspace in Hw2, Hb.
    do 3 eexists. split; [exact Hw1|]. split; [exact Hw2|].
    rewrite Ha, Hb, Hres. reflexivity.
  - destruct (overwrite_valid c1 s bytes Hv1 Hs Hbytes) as (? & Hw1 & _ & _ & Ha).
    destruct (overwrite_valid c2 s bytes Hv2 Hs Hbytes) as (? & Hw2 & _ & _ & Hb).
    rewrite <- Hspace, <- Hsize in Hw2, Hb.
    do 3 eexists. split; [exact Hw1|]. split; [exact Hw2|].
    rewrite Ha, Hb, Hres. reflexivity.
  - assert (Hn : 0 <= Z.min m (circ_buf_used (Some c1)) <= circ_buf_used (Some c1))
      by lia.
    do 4 eexists. split; [|split].
    + apply (read_ring c1 d m Hr1 Hm). lia.
    + rewrite (read_ring c2 d m Hr2 Hm) by lia.
      rewrite <- Hused, <- Hres. reflexivity.
    + rewrite (resident_skipped c1 _ Hv1 Hn).
      rewrite (resident_skipped c2 _ Hv2) by (rewrite <- Hused; exact Hn).
      rewrite Hres. reflexivity.
Qed.

End Composition.

Section Lifecycle.
Context {sz : SizeT}.
Implicit Types c : circ_buf_s.

(** X11.  A [circ_buf_init] that returns [0] for a nonzero size, with a
    block of that size lent or supplied by the allocator, leaves a ring
    buffer with its cursors in order at the origin: empty, every byte of the
    capacity free, borrowed exactly when a block was passed in, and over that
    very block then. *)
Theorem init_success (kmm_malloc : allocator) (circ : handle) (base : ptr)
    (bytes : Z) c :
  size_t bytes -> bytes <> 0 ->
  allocator_ok kmm_malloc -> block_ok base bytes ->
  circ_buf_init kmm_malloc circ base bytes = (Val 0, Some c) ->
  valid c
  /\ size c = bytes /\ head c = 0 /\ tail c = 0
  /\ resident c = []
  /\ circ_buf_is_empty (Some c) = true
  /\ circ_buf_space (Some c) = bytes
  /\ (base <> NULL -> CircBuf.base c = base /\ external c = true)
  /\ (base = NULL -> kmm_malloc bytes = CircBuf.base c /\ external c = false).
Proof.
  intros Hbytes Hnz Halloc Hblock H. pose proof SIZE_MOD_large as HM.
  unfold size_t in Hbytes.
  assert (Hc : exists blk,
             c = mk_circ_buf (Some blk) bytes 0 0
                   (match base with Some _ => true | None => false end)
             /\ len blk = bytes
             /\ match base with
                | Some _ => base = Some blk
                | None => kmm_malloc bytes = Some blk
                end).
  { unfold circ_buf_init in H. destruct circ as [c0|]; [|discriminate].
    destruct base as [b|].
    - destruct (Z.eqb_spec bytes 0); [discriminate|]. injection H as <-.
      exists b. auto.
    - destruct (Z.eqb_spec bytes 0); [contradiction|].
      destruct (kmm_malloc bytes) as [blk|] eqn:Hm; [|discriminate].
      injection H as <-. exists blk. split; [reflexivity|].
      split; [apply (Halloc bytes blk); [lia|exact Hm]|reflexivity]. }
  destruct Hc as (blk & -> & Hlen & Hsrc).
  assert (E : circ_buf_used
                (Some (mk_circ_buf (Some blk) bytes 0 0
                         (match base with Some _ => true | None => false end)))
              = 0).
  { cbn [circ_buf_used head tail]. apply size_sub_small; lia. }
  assert (Hr : ring (mk_circ_buf (Some blk) bytes 0 0
                       (match base with Some _ => true | None => false end))).
  { unfold ring. rewrite E. cbn [size CircBuf.base].
    split; [lia|]. split; [lia|]. exists blk. auto. }
  split; [split; [exact Hr|cbn [head tail]; lia]|].
  split; [reflexivity|]. split; [reflexivity|]. split; [reflexivity|].
  split; [unfold resident; rewrite E; reflexivity|].
  split; [unfold circ_buf_is_empty; rewrite E; reflexivity|].
  split; [rewrite (space_ring _ Hr), E; cbn [size]; lia|].
  cbn [CircBuf.base external]. split.
  - intros Hb. destruct base as [b|]; [|contradiction]. auto.
  - intros ->. auto.
Qed.

(** X12.  A [circ_buf_init] that returns an error returns [-EINVAL] for a
    [NULL] structure or a block lent with zero bytes, and then has written
    nothing; or [-ENOMEM] when no block was lent, the size is not zero and
    the allocator had none, and then it has already cleared the [external]
    flag of the structure and written no other field. *)
Theorem init_failure (kmm_malloc : allocator) (circ : handle) (base : ptr)
    (bytes : Z) (e : errno) (circ' : handle) :
  circ_buf_init kmm_malloc circ base bytes = (NegErrno e, circ') ->
  (e = EINVAL /\ circ' = circ /\ (circ = None \/ (base <> NULL /\ bytes = 0)))
  \/ (e = ENOMEM /\ base = NULL /\ bytes <> 0 /\ kmm_malloc bytes = NULL
      /\ exists c0,
          circ = Some c0
          /\ circ' = Some (mk_circ_buf (CircBuf.base c0) (size c0) (head c0)
                             (tail c0) false)).
Proof.
  unfold circ_buf_init. intros H. destruct circ as [c0|].
  - destruct base as [b|].
    + destruct (Z.eqb_spec bytes 0); [|discriminate].
      injection H as <- <-. left. split; [reflexivity|]. split; [reflexivity|].
      right. split; [discriminate|assumption].
    + destruct (Z.eqb_spec bytes 0); [discriminate|].
      destruct (kmm_malloc bytes) eqn:Hm; [discriminate|].
      injection H as <- <-. right. repeat split; try assumption.
      exists c0. split; reflexivity.
  - injection H as <- <-. left. auto.
Qed.

(** X13.  On every structure whose capacity is zero, with or without a
    block, [circ_buf_peek] divides by zero whatever its destination, [NULL]
    included, and its count.  [circ_buf_read], [circ_buf_write] and
    [circ_buf_overwrite] divide by zero whenever their destination or source
    is not [NULL], whatever its bytes and the count; with a [NULL]
    destination or source they return [-EINVAL] before any division and
    leave the structure as it was.  [circ_buf_resize] on an owned structure
    of capacity zero divides by zero once the allocator has supplied the new
    block: a structure initialized with no block and zero bytes cannot be
    given a capacity later. *)
Theorem zero_capacity_every_call (kmm_malloc : allocator) c
    (dst : ptr) (d s tmp : list byte) (bytes : Z) :
  size c = 0 ->
  circ_buf_peek (Some c) dst bytes = Raise DivByZero
  /\ circ_buf_read (Some c) (Some d) bytes = Raise DivByZero
  /\ circ_buf_write (Some c) (Some s) bytes = Raise DivByZero
  /\ circ_buf_overwrite (Some c) (Some s) bytes = Raise DivByZero
  /\ (external c = false -> kmm_malloc bytes = Some tmp ->
      circ_buf_resize kmm_malloc (Some c) bytes = Raise DivByZero)
  /\ circ_buf_read (Some c) NULL bytes = Pure (NegErrno EINVAL, Some c, NULL)
  /\ circ_buf_write (Some c) NULL bytes = Pure (NegErrno EINVAL, Some c)
  /\ circ_buf_overwrite (Some c) NULL bytes = Pure (NegErrno EINVAL, Some c).
Proof.
  intros Hz.
  assert (Hpeek : forall c1 p m, size c1 = 0 ->
             circ_buf_peek (Some c1) p m = Raise DivByZero).
  { intros c1 p m H1. unfold circ_buf_peek. rewrite H1. reflexivity. }
  assert (Hread : forall c1 b m, size c1 = 0 ->
             circ_buf_read (Some c1) (Some b) m = Raise DivByZero).
  { intros c1 b m H1. unfold circ_buf_read. rewrite Hpeek by exact H1.
    reflexivity. }
  split; [apply Hpeek; exact Hz|]. split; [apply Hread; exact Hz|].
  split; [unfold circ_buf_write; rewrite Hz; reflexivity|].
  split; [|split; [|repeat split]].
  - unfold circ_buf_overwrite. rewrite Hz.
    destruct (bytes >? 0); reflexivity.
  - intros Hext Hm. unfold circ_buf_resize. rewrite Hext, Hm.
    destruct (bytes <? circ_buf_used (Some c)).
    + cbn [bind circ_buf_skip]. rewrite Hread by exact Hz. reflexivity.
    + cbn [bind]. rewrite Hread by exact Hz. reflexivity.
Qed.

(** X14.  In every state reached from a successful [circ_buf_init] with a
    capacity that is not zero, the data-movement calls return: with a source
    that holds the bytes announced, or a destination that has room for them,
    [circ_buf_write], [circ_buf_overwrite], [circ_buf_peek] and
    [circ_buf_read] never divide by zero and never touch a byte outside the
    block, the source or the destination, and the structure they leave is
    reachable in its turn. *)
Theorem reachable_calls_return c (s d : list byte) (m : Z) :
  reachable c -> size c <> 0 ->
  size_t (len s) -> size_t m -> m <= len d ->
  (exists r c', circ_buf_write (Some c) (Some s) (len s) = Pure (r, Some c')
                /\ reachable c')
  /\ (exists r c', circ_buf_overwrite (Some c) (Some s) (len s) = Pure (r, Some c')
                   /\ reachable c')
  /\ (exists r d', circ_buf_peek (Some c) (Some d) m = Pure (r, Some c, d'))
  /\ (exists r c' d', circ_buf_read (Some c) (Some d) m = Pure (r, Some c', d')
                      /\ reachable c').
Proof.
  intros Hreach Hnz Hs Hm Hd.
  pose proof (reachable_ring _ c Hreach Hnz) as Hr.
  pose proof (used_range c) as Hu. unfold size_t in Hs, Hm.
  split; [|split; [|split]].
  - destruct (write_ring c s (len s) Hr eq_refl) as (_ & blk' & _ & Hw & _).
    do 2 eexists. split; [exact Hw|].
    unfold reachable.
    eapply (reach_op _ c (OpWrite (Some s) (len s)));
      [exact Hreach|split; [exact Hs|exact I]|exact Hw|exact I].
  - destruct (overwrite_ring c s (len s) Hr eq_refl ltac:(lia))
      as (_ & blk' & _ & Hw & _).
    do 2 eexists. split; [exact Hw|].
    unfold reachable.
    eapply (reach_op _ c (OpOverwrite (Some s) (len s)));
      [exact Hreach|split; [exact Hs|exact I]|exact Hw|exact I].
  - do 2 eexists. apply (peek_ring c d m Hr); lia.
  - pose proof (read_ring c d m Hr ltac:(lia) ltac:(lia)) as Hrd.
    cbv zeta in Hrd. do 3 eexists. split; [exact Hrd|].
    unfold reachable.
    eapply (reach_op _ c (OpRead (Some d) m));
      [exact Hreach|split; [exact Hm|exact I]
      |cbn [run_op]; rewrite Hrd; reflexivity|exact I].
Qed.

(** X16.  [circ_buf_resize] to a capacity that holds the occupancy loses
    nothing, whether or not a cursor had wrapped: on every owned ring buffer,
    when the allocator supplies the block, it returns [0] and leaves a ring
    buffer of the new capacity with the same resident bytes and its cursors
    in order again, the read cursor at the origin. *)
Theorem resize_keeps_all (kmm_malloc : allocator) c (bytes : Z) (tmp : list byte) :
  ring c -> external c = false -> size_t bytes -> 0 < bytes ->
  circ_buf_used (Some c) <= bytes ->
  kmm_malloc bytes = Some tmp -> len tmp = bytes ->
  exists c',
    circ_buf_resize kmm_malloc (Some c) bytes = Pure (Val 0, Some c')
    /\ valid c'
    /\ resident c' = resident c
    /\ size c' = bytes /\ tail c' = 0 /\ head c' = circ_buf_used (Some c).
Proof.
  intros Hr Hext Hbytes Hpos Hfit Hmalloc Htmp.
  pose proof (used_range c) as Hu. pose proof (length_resident c Hr) as HL.
  unfold size_t in Hbytes.
  set (n := circ_buf_used (Some c)) in *.
  set (blk' := resident c ++ skipn (Z.to_nat n) tmp).
  assert (Hrun : circ_buf_resize kmm_malloc (Some c) bytes
                 = Pure (Val 0, Some (mk_circ_buf (Some blk') bytes n 0 false))).
  { unfold circ_buf_resize. rewrite Hext, Hmalloc. fold n.
    destruct (Z.ltb_spec bytes n) as [Hlt|_]; [lia|]. cbn [bind].
    assert (Hm : Z.min n (circ_buf_used (Some c)) = n) by (fold n; lia).
    rewrite (read_ring c tmp n Hr) by (fold n; lia). rewrite Hm.
    cbn [bind deref set_tail external]. rewrite Hext.
    rewrite firstn_all2 by (unfold len in HL; lia). reflexivity. }
  assert (Hlen : len blk' = bytes).
  { unfold blk', len in *. rewrite length_app, length_skipn. lia. }
  assert (Hused : size_sub n 0 = n) by (rewrite size_sub_small; lia).
  eexists. split; [exact Hrun|]. split; [|split].
  - split.
    + unfold ring. cbn [circ_buf_used head tail size base]. rewrite Hused.
      split; [lia|]. split; [lia|]. exists blk'. auto.
    + cbn [head tail]. lia.
  - unfold resident at 1. cbn [base tail size circ_buf_used head].
    rewrite Hused, Zmod_0_l. change (Z.to_nat 0) with 0%nat.
    unfold blk'. set (rest := skipn (Z.to_nat n) tmp).
    assert (Hk : length (resident c) = Z.to_nat n) by (unfold len in HL; lia).
    set (R := resident c) in *. seg. reflexivity.
  - repeat split.
Qed.

End Lifecycle.

(** ** Scenarios *)

Lemma empty8_valid : @valid size64 empty8.
Proof. closed_valid. Qed.

Lemma wrapped16_ring : @ring size16 wrapped16.
Proof.
  unfold ring. split; [closed_range|]. split.
  - vm_compute. discriminate.
  - exists block16. split; [reflexivity|]. vm_compute. reflexivity.
Qed.

(** X1: one byte read out of two. *)
Lemma read_spec_witness :
  exists c',
    @circ_buf_read size64 (Some holds_BC) (Some (repeat x00 4)) 1
    = Pure (Val 1, Some c', Some ["B"; x00; x00; x00]%byte)
    /\ @resident size64 c' = ["C"]%byte
    /\ @valid size64 c'.
Proof.
  destruct (@read_spec size64 holds_BC (repeat x00 4) 1 holds_BC_valid)
    as (c' & Hread & _ & Hres & _ & _ & _ & _ & Hv & _).
  - lia.
  - cbn. lia.
  - exists c'. split; [exact Hread|]. split; [exact Hres|exact Hv].
Defined.

(** X2: more bytes skipped than are resident. *)
Lemma skip_spec_witness :
  exists c',
    @circ_buf_skip size64 (Some holds_BC) 5 = Pure (Val 2, Some c')
    /\ @resident size64 c' = []
    /\ @circ_buf_is_empty size64 (Some c') = true.
Proof.
  destruct (@skip_spec size64 holds_BC 5 holds_BC_valid)
    as (c' & Hskip & _ & Hres & _ & _ & _ & _ & Hempty).
  - lia.
  - exists c'. split; [exact Hskip|]. split; [exact Hres|].
    apply Hempty. cbn. lia.
Defined.

(** X3: the structure whose write cursor had wrapped below the read cursor. *)
Lemma reset_spec_witness :
  exists c',
    circ_buf_reset (Some wrapped16) = Some c'
    /\ @valid size16 c'
    /\ head c' = 0 /\ tail c' = 0
    /\ @circ_buf_space size16 (Some c') = 4096.
Proof.
  destruct (@reset_spec size16 wrapped16 wrapped16_ring)
    as (c' & Hreset & Hv & _ & _ & Hspace & Hh & Ht & _).
  exists c'. split; [exact Hreset|]. split; [exact Hv|].
  split; [exact Hh|]. split; [exact Ht|exact Hspace].
Defined.

(** X4: the buffer of capacity 4 full of ["ABCD"]. *)
Lemma empty_full_spec_witness :
  len (@resident size64 full_ABCD) = 4
  /\ @circ_buf_space size64 (Some full_ABCD) = 0.
Proof.
  destruct (@empty_full_spec size64 full_ABCD (valid_ring _ full_ABCD_valid))
    as (_ & Hfull & _ & Hspace).
  split; [apply Hfull; reflexivity|exact Hspace].
Defined.

(** X5: the full 16-bit structure whose write cursor had wrapped below the
    read cursor, ["EF"] offered. *)
Lemma write_when_full_witness :
  @circ_buf_write size16 (Some wrapped16) (Some ["E"; "F"]%byte) 2
  = Pure (Val 0, Some wrapped16)
  /\ @circ_buf_write size16 (Some wrapped16) NULL 2
     = Pure (NegErrno EINVAL, Some wrapped16).
Proof.
  apply (@write_when_full size16 wrapped16 ["E"; "F"]%byte 2 wrapped16_ring).
  - closed_range.
  - reflexivity.
  - lia.
Defined.

(** X6: four bytes asked of an empty buffer. *)
Lemma read_when_empty_witness :
  @circ_buf_read size64 (Some empty4) (Some ABCD) 4
  = Pure (Val 0, Some empty4, Some ABCD)
  /\ @circ_buf_peek size64 (Some empty4) (Some ABCD) 4
     = Pure (Val 0, Some empty4, Some ABCD).
Proof.
  apply (@read_when_empty size64 empty4 ABCD 4 empty4_valid).
  - reflexivity.
  - lia.
Defined.

(** X7: one byte where two are free. *)
Lemma overwrite_with_room_witness :
  exists c',
    @circ_buf_write size64 (Some holds_BC) (Some ["D"]%byte) 1
    = Pure (Val 1, Some c')
    /\ @circ_buf_overwrite size64 (Some holds_BC) (Some ["D"]%byte) 1
       = Pure (Val 0, Some c')
    /\ @resident size64 c' = ["B"; "C"; "D"]%byte.
Proof.
  destruct (@overwrite_with_room size64 holds_BC ["D"]%byte 1 holds_BC_valid)
    as (c' & Hw & _ & Hov & Hres).
  - reflexivity.
  - cbn. lia.
  - exists c'. split; [exact Hw|]. split; [exact Hov|exact Hres].
Defined.

(** X8: six bytes into a capacity of 4 that held two. *)
Lemma overwrite_whole_witness :
  exists c',
    @circ_buf_overwrite size64 (Some holds_BC) (Some ABCDEF) 6
    = Pure (Val 2, Some c')
    /\ @resident size64 c' = CDEF
    /\ @circ_buf_is_full size64 (Some c') = true.
Proof.
  destruct (@overwrite_whole size64 holds_BC ABCDEF 6 holds_BC_valid)
    as (c' & Hov & _ & Hres & Hfull & _).
  - reflexivity.
  - cbn. lia.
  - closed_range.
  - exists c'. split; [exact Hov|]. split; [exact Hres|exact Hfull].
Defined.

(** X9: ["ABCD"] and then ["EF"] into an empty buffer of capacity 8. *)
Lemma writes_concatenate_witness :
  exists c1 c2,
    @circ_buf_write size64 (Some empty8) (Some ABCD) 4 = Pure (Val 4, Some c1)
    /\ @circ_buf_write size64 (Some c1) (Some ["E"; "F"]%byte) 2
       = Pure (Val 2, Some c2)
    /\ @circ_buf_write size64 (Some empty8) (Some ABCDEF) 6
       = Pure (Val 6, Some c2)
    /\ @resident size64 c2 = ABCDEF.
Proof.
  destruct (@writes_concatenate size64 empty8 ABCD ["E"; "F"]%byte empty8_valid)
    as (c1 & c2 & Hw1 & Hw2 & Hw12 & _ & Hres).
  - cbn. lia.
  - closed_range.
  - exists c1, c2. split; [exact Hw1|]. split; [exact Hw2|].
    split; [exact Hw12|exact Hres].
Defined.

(** X10: ["ABCD"] resident at the places 2, 3, 0, 1 of one block and at
    0, 1, 2, 3 of another. *)
Lemma resident_determines_results_witness :
  (exists r c1' c2',
      @circ_buf_overwrite size64 (Some full_ABCD) (Some ["E"; "F"]%byte) 2
      = Pure (r, Some c1')
      /\ @circ_buf_overwrite size64 (Some (mk_circ_buf (Some ABCD) 4 4 0 false))
           (Some ["E"; "F"]%byte) 2
         = Pure (r, Some c2')
      /\ @resident size64 c1' = @resident size64 c2')
  /\ (exists r d' c1' c2',
        @circ_buf_read size64 (Some full_ABCD) (Some (repeat x00 4)) 3
        = Pure (r, Some c1', d')
        /\ @circ_buf_read size64 (Some (mk_circ_buf (Some ABCD) 4 4 0 false))
             (Some (repeat x00 4)) 3
           = Pure (r, Some c2', d')
        /\ @resident size64 c1' = @resident size64 c2').
Proof.
  destruct (@resident_determines_results size64 full_ABCD
              (mk_circ_buf (Some ABCD) 4 4 0 false)
              ["E"; "F"]%byte (repeat x00 4) 2 3 full_ABCD_valid)
    as (_ & Hov & Hrd).
  - closed_valid.
  - reflexivity.
  - reflexivity.
  - reflexivity.
  - closed_range.
  - lia.
  - cbn. lia.
  - split; [exact Hov|exact Hrd].
Defined.

(** X11: eight bytes from the allocator. *)
Lemma init_success_witness :
  @valid size64 empty8
  /\ @resident size64 empty8 = []
  /\ @circ_buf_space size64 (Some empty8) = 8
  /\ external empty8 = false.
Proof.
  destruct (@init_success size64 calloc (Some fresh) NULL 8 empty8)
    as (Hv & _ & _ & _ & Hres & _ & Hspace & _ & Hown).
  - closed_range.
  - lia.
  - exact calloc_ok.
  - exact I.
  - reflexivity.
  - split; [exact Hv|]. split; [exact Hres|]. split; [exact Hspace|].
    apply Hown. reflexivity.
Defined.

(** X12: no memory for a structure that was borrowed before. *)
Lemma init_failure_witness :
  circ_buf_init no_memory (Some borrowed_BC) NULL 8
  = (NegErrno ENOMEM, Some holds_BC)
  /\ ((ENOMEM = EINVAL /\ Some holds_BC = Some borrowed_BC
       /\ (Some borrowed_BC = None \/ (NULL <> NULL /\ 8 = 0)))
      \/ (ENOMEM = ENOMEM /\ NULL = NULL /\ 8 <> 0 /\ no_memory 8 = NULL
          /\ exists c0,
              Some borrowed_BC = Some c0
              /\ Some holds_BC
                 = Some (mk_circ_buf (base c0) (size c0) (head c0) (tail c0)
                           false))).
Proof.
  split; [reflexivity|].
  apply (@init_failure no_memory (Some borrowed_BC) NULL 8 ENOMEM (Some holds_BC)).
  reflexivity.
Defined.

(** X13: the structure of [circ_buf_init] with no block and zero bytes. *)
Lemma zero_capacity_every_call_witness :
  @circ_buf_overwrite size64 (Some fresh) (Some ABCD) 4 = Raise DivByZero
  /\ @circ_buf_resize size64 calloc (Some fresh) 4 = Raise DivByZero
  /\ @circ_buf_overwrite size64 (Some fresh) NULL 4
     = Pure (NegErrno EINVAL, Some fresh).
Proof.
  destruct (@zero_capacity_every_call size64 calloc fresh NULL ABCD ABCD
              (repeat x00 4) 4 eq_refl)
    as (_ & _ & _ & Hov & Hrs & _ & _ & Hnull).
  split; [exact Hov|]. split; [apply Hrs; reflexivity|exact Hnull].
Defined.

(** X14: capacity 8 after ["ABCDEF"] was written. *)
Lemma reachable_calls_return_witness :
  (exists r c',
      @circ_buf_write size64 (Some holds_ABCDEF) (Some DEF) (len DEF)
      = Pure (r, Some c')
      /\ @reachable size64 c')
  /\ (exists r c' d',
        @circ_buf_read size64 (Some holds_ABCDEF) (Some (repeat x00 4)) 4
        = Pure (r, Some c', d')
        /\ @reachable size64 c').
Proof.
  destruct (@reachable_calls_return size64 holds_ABCDEF DEF (repeat x00 4) 4
              (holds_ABCDEF_reachable _ I))
    as (Hw & _ & _ & Hr).
  - discriminate.
  - closed_range.
  - closed_range.
  - cbn. lia.
  - split; [exact Hw|exact Hr].
Defined.

(** X16: capacity 4 holding ["BC"], resized to 8. *)
Lemma resize_keeps_all_witness :
  exists c',
    @circ_buf_resize size64 calloc (Some holds_BC) 8 = Pure (Val 0, Some c')
    /\ @valid size64 c'
    /\ @resident size64 c' = ["B"; "C"]%byte
    /\ size c' = 8.
Proof.
  destruct (@resize_keeps_all size64 calloc holds_BC 8 (repeat x00 8)
              (valid_ring _ holds_BC_valid))
    as (c' & Hrun & Hv & Hres & Hsize & _).
  - reflexivity.
  - closed_range.
  - lia.
  - cbn. lia.
  - reflexivity.
  - reflexivity.
  - exists c'. split; [exact Hrun|]. split; [exact Hv|].
    split; [exact Hres|exact Hsize].
Defined.

End CircBufMore.

(** * Further properties of the buffer-chain queue *)

Module IobMore.
Import Iob IobSpec.

Section QueueSize.
Context {sz : SizeT}.

Lemma list_sum_Z_app (l1 l2 : list Z) :
  list_sum_Z (l1 ++ l2) = list_sum_Z l1 + list_sum_Z l2.
Proof.
  unfold list_sum_Z. induction l1 as [|a l1 IH]; cbn [app fold_right]; lia.
Qed.

(** X15.  The size of a queue made of the entries of two queues is the
    [size_t] sum of their sizes, and the size of a queue is the size of the
    one chain that strings all its segments together: how the segments are
    grouped into entries does not count, and an entry with an empty chain
    adds nothing. *)
Theorem iob_get_queue_size_app (entries1 entries2 : list iob_qentry_s) :
  iob_get_queue_size (mk_queue (entries1 ++ entries2))
  = size_add (iob_get_queue_size (mk_queue entries1))
      (iob_get_queue_size (mk_queue entries2))
  /\ iob_get_queue_size (mk_queue entries1)
     = chain_size 0 (concat (map qe_head entries1)).
Proof.
  assert (H0 : wrap 0 = 0) by (unfold wrap; apply Zmod_0_l).
  split.
  - unfold iob_get_queue_size. cbn [qh_head].
    rewrite !queue_size_sum by exact H0.
    rewrite map_app, list_sum_Z_app. unfold size_add.
    rewrite CircBufSpec.wrap_wrap_add. rewrite !Z.add_0_l.
    unfold wrap. rewrite Zplus_mod_idemp_r. reflexivity.
  - unfold iob_get_queue_size. cbn [qh_head].
    rewrite queue_size_sum by exact H0. rewrite chain_size_sum by exact H0.
    do 2 f_equal. induction entries1 as [|e es IH].
    + reflexivity.
    + cbn [map concat]. rewrite map_app, list_sum_Z_app, <- IH. reflexivity.
Qed.

End QueueSize.

End IobMore.
